(** * Payment-gated callback correlation: a shallow embedding

    The development follows the TypeScript sources of the bot:
    - [pending.ts]       the two pending-callback registries and the search state,
    - the server module  the expiry sweep, [handleDiscordCallback],
                         [handleTelegramCallback] and the x402 payment gate,
    - [telegram.ts]      the command handlers ([/summarise], [/search_events], [/more]),
    - [telegramStore.ts] the capped per-chat message store.

    JavaScript strings are sequences of UTF-16 code units; regular expressions
    are run by a small backtracking matcher with the priorities of the
    ECMAScript one.  Network calls are not executed: every handler takes the
    outcome of each call it awaits as an argument and returns the list of
    platform calls it issued. *)

From Stdlib Require Import ZArith NArith Bool Lia DecimalString.
From stdpp Require Import base gmap strings list.

Set Default Proof Using "Type".
Local Open Scope N_scope.

(* ===================================================================== *)
(** ** JavaScript strings *)
(* ===================================================================== *)

Module JsString.

(** A string value: the list of its UTF-16 code units. *)
Definition jsstring := list N.

(** An ASCII literal of the source as a string value. *)
Definition js (s : string) : jsstring :=
  map Ascii.N_of_ascii (String.list_ascii_of_string s).
Arguments js : simpl never.

(** The characters of the source that are outside ASCII.  [telegram.ts] has
    them as they are; the listing of the server module shows their UTF-8
    bytes read as Mac OS Roman (three such characters for the bullet). *)
Definition bullet : jsstring := [8226].               (* U+2022 *)
Definition check_mark : jsstring := [9989].           (* U+2705 *)
Definition credit_card : jsstring := [55357; 56499].  (* U+1F4B3 *)
Definition link_symbol : jsstring := [55357; 56599].  (* U+1F517 *)

(** LineTerminator: LF, CR, LS, PS. *)
Definition is_line_terminator (c : N) : bool :=
  (c =? 10) || (c =? 13) || (c =? 8232) || (c =? 8233).

(** WhiteSpace and LineTerminator, the set of [\s] and of [trim]. *)
Definition is_space (c : N) : bool :=
  ((9 <=? c) && (c <=? 13)) || (c =? 32) || (c =? 160) || (c =? 5760)
  || ((8192 <=? c) && (c <=? 8202)) || (c =? 8232) || (c =? 8233)
  || (c =? 8239) || (c =? 8287) || (c =? 12288) || (c =? 65279).

Definition is_digit (c : N) : bool := (48 <=? c) && (c <=? 57).

Fixpoint trimStart (s : jsstring) : jsstring :=
  match s with
  | c :: s' => if is_space c then trimStart s' else s
  | [] => []
  end.

Definition trimEnd (s : jsstring) : jsstring := rev (trimStart (rev s)).

(** [String.prototype.trim]. *)
Definition trim (s : jsstring) : jsstring := trimEnd (trimStart s).

(** The line feed, [\n] in the source. *)
Definition LF : jsstring := [10].

(** Truthiness of a string: it is not empty. *)
Definition truthy_string (s : jsstring) : bool :=
  match s with [] => false | _ => true end.

(** A number that may be undefined, under [if (!x)]: zero counts as
    absent. *)
Definition truthy_number (x : option Z) : option Z :=
  match x with
  | Some z => if (z =? 0)%Z then None else Some z
  | None => None
  end.

(** [String.prototype.includes] (and [startsWith]). *)
Fixpoint startsWith (p s : jsstring) : bool :=
  match p, s with
  | [], _ => true
  | a :: p', b :: s' => (a =? b) && startsWith p' s'
  | _ :: _, [] => false
  end.

Fixpoint includes (p s : jsstring) : bool :=
  startsWith p s ||
  match s with
  | _ :: s' => includes p s'
  | [] => false
  end.

(** [String(n)] for an integer. *)
Definition string_of_Z (z : Z) : jsstring :=
  js (NilEmpty.string_of_int (Z.to_int z)).

End JsString.
Export JsString.

(* ===================================================================== *)
(** ** Regular expressions *)
(* ===================================================================== *)

Module Regex.

(** The constructs the patterns of the server module are made of.  Every
    quantifier in them applies to a single character class, so [Rep] carries
    a class and the matcher recurses on the subject string. *)
Inductive re : Type :=
| Eps                                 (* the empty pattern *)
| Chr (p : N -> bool)                 (* one code unit of a class *)
| Bol                                 (* [^] under the [m] flag *)
| Boi                                 (* [^] without the [m] flag *)
| Eoi                                 (* [$] without the [m] flag *)
| Cat (r1 r2 : re)                    (* r1 r2 *)
| Alt (r1 r2 : re)                    (* r1|r2 *)
| Rep (greedy : bool) (p : N -> bool) (* [c]* and [c]*? *).

(** [^] under [m]: at the start of the input or after a line terminator. *)
Definition at_line_start (prev : option N) : bool :=
  match prev with
  | None => true
  | Some c => is_line_terminator c
  end.

Section Matcher.
Context {A : Type}.

(** A continuation receives the code unit before the current position and
    the rest of the input. *)
Definition cont := option N -> jsstring -> option A.

(** Greedy star: take one more code unit first, give it back on failure. *)
Fixpoint rep_greedy (p : N -> bool) (k : cont) (prev : option N) (s : jsstring)
  : option A :=
  match s with
  | c :: s' =>
      if p c then
        match rep_greedy p k (Some c) s' with
        | Some a => Some a
        | None => k prev s
        end
      else k prev s
  | [] => k prev s
  end.

(** Lazy star: try the continuation first, take one more on failure. *)
Fixpoint rep_lazy (p : N -> bool) (k : cont) (prev : option N) (s : jsstring)
  : option A :=
  match k prev s with
  | Some a => Some a
  | None =>
      match s with
      | c :: s' => if p c then rep_lazy p k (Some c) s' else None
      | [] => None
      end
  end.

(** The backtracking matcher, in continuation-passing style: alternatives
    are tried left to right and the first success is the answer. *)
Fixpoint run (r : re) (k : cont) (prev : option N) (s : jsstring) : option A :=
  match r with
  | Eps => k prev s
  | Chr p =>
      match s with
      | c :: s' => if p c then k (Some c) s' else None
      | [] => None
      end
  | Bol => if at_line_start prev then k prev s else None
  | Boi => match prev with None => k prev s | Some _ => None end
  | Eoi => match s with [] => k prev s | _ :: _ => None end
  | Cat r1 r2 => run r1 (run r2 k) prev s
  | Alt r1 r2 =>
      match run r1 k prev s with
      | Some a => Some a
      | None => run r2 k prev s
      end
  | Rep true p => rep_greedy p k prev s
  | Rep false p => rep_lazy p k prev s
  end.
End Matcher.

(** A match attempt at one position: the input left after the match. *)
Definition exec (r : re) (prev : option N) (s : jsstring) : option jsstring :=
  run r (fun _ rest => Some rest) prev s.

(** The same for a pattern [r1(r2)]: the input at the start of the group and
    the input left after the match. *)
Definition exec_group (r1 r2 : re) (prev : option N) (s : jsstring)
  : option (jsstring * jsstring) :=
  run r1 (fun p1 s1 => run r2 (fun _ rest => Some (s1, rest)) p1 s1) prev s.

(** The text between a position and a later one. *)
Definition matched (s rest : jsstring) : jsstring :=
  take (length s - length rest) s.

(** [s.replace(/r/, repl)] and [s.replace(/r1(r2)/, "$1")] without the [g]
    flag: the first match from the left is replaced, nothing else. *)
Fixpoint replace_first (r : re) (repl : jsstring) (prev : option N) (s : jsstring)
  : jsstring :=
  match exec r prev s with
  | Some rest => repl ++ rest
  | None =>
      match s with
      | c :: s' => c :: replace_first r repl (Some c) s'
      | [] => []
      end
  end.

Fixpoint keep_group_first (r1 r2 : re) (prev : option N) (s : jsstring) : jsstring :=
  match exec_group r1 r2 prev s with
  | Some (s1, rest) => matched s1 rest ++ rest
  | None =>
      match s with
      | c :: s' => c :: keep_group_first r1 r2 (Some c) s'
      | [] => []
      end
  end.

(** [s.replace(/r/g, f)] with a replacer function that reads and updates a
    variable of the enclosing scope ([st]).  Matches are looked for from
    left to right; [skip] counts the code units of the current match that
    are still to be passed over; after an empty match the scan advances by
    one code unit. *)
Fixpoint replace_all_with {St : Type} (r : re) (f : St -> jsstring -> St * jsstring)
    (st : St) (skip : nat) (prev : option N) (s : jsstring) : jsstring :=
  match s with
  | [] =>
      match skip, exec r prev [] with
      | O, Some _ => snd (f st [])
      | _, _ => []
      end
  | c :: s' =>
      match skip with
      | S n => replace_all_with r f st n (Some c) s'
      | O =>
          match exec r prev s with
          | Some rest =>
              let m := matched s rest in
              let '(st', out) := f st m in
              match length m with
              | O => out ++ c :: replace_all_with r f st' O (Some c) s'
              | S n => out ++ replace_all_with r f st' n (Some c) s'
              end
          | None => c :: replace_all_with r f st O (Some c) s'
          end
      end
  end.

(** [s.replace(/r/g, repl)] with a constant replacement. *)
Definition replace_all (r : re) (repl : jsstring) (s : jsstring) : jsstring :=
  replace_all_with r (fun (st : unit) _ => (st, repl)) tt O None s.

(** [s.match(/r/g)]: the texts matched, in the order of the scan that
    [replace] makes. *)
Fixpoint match_all (r : re) (skip : nat) (prev : option N) (s : jsstring)
  : list jsstring :=
  match s with
  | [] =>
      match skip, exec r prev [] with
      | O, Some _ => [[]]
      | _, _ => []
      end
  | c :: s' =>
      match skip with
      | S n => match_all r n (Some c) s'
      | O =>
          match exec r prev s with
          | Some rest =>
              let m := matched s rest in
              m :: match length m with
                   | O => match_all r O (Some c) s'
                   | S n => match_all r n (Some c) s'
                   end
          | None => match_all r O (Some c) s'
          end
      end
  end.

(** The pattern matches nowhere in the string. *)
Definition no_match (r : re) (s : jsstring) : bool :=
  match match_all r O None s with
  | [] => true
  | _ :: _ => false
  end.

(** *** Building patterns *)

Definition is_upper (c : N) : bool := (65 <=? c) && (c <=? 90).
Definition is_lower (c : N) : bool := (97 <=? c) && (c <=? 122).

(** The code units a pattern character matches under the [i] flag: for an
    ASCII letter, its two cases; no code unit outside ASCII is folded onto
    an ASCII one. *)
Definition eq_ci (a c : N) : bool :=
  (a =? c)
  || (is_upper a && (c =? a + 32))
  || (is_lower a && (c =? a - 32)).

Fixpoint lit (s : jsstring) : re :=
  match s with
  | [] => Eps
  | c :: s' => Cat (Chr (N.eqb c)) (lit s')
  end.

Fixpoint lit_ci (s : jsstring) : re :=
  match s with
  | [] => Eps
  | c :: s' => Cat (Chr (eq_ci c)) (lit_ci s')
  end.

Fixpoint seq (rs : list re) : re :=
  match rs with
  | [] => Eps
  | [r] => r
  | r :: rs' => Cat r (seq rs')
  end.

Definition opt (r : re) : re := Alt r Eps.

Definition any : N -> bool := fun _ => true.
Definition dot (c : N) : bool := negb (is_line_terminator c).
Definition not_nl (c : N) : bool := negb (c =? 10).
Definition is_nl (c : N) : bool := c =? 10.
Definition not_space (c : N) : bool := negb (is_space c).
Definition not_rbracket (c : N) : bool := negb (c =? 93).

End Regex.
Export Regex.

(* ===================================================================== *)
(** ** The sanitization chain of the callback handlers *)
(* ===================================================================== *)

Module Sanitize.

(** The group of the two greeting patterns: [Good ], one of [morning],
    [afternoon], [evening], then [!] and the rest of the line ([[^\n]] starred). *)
Definition greeting_body : re :=
  seq [ lit (js "Good ");
        Alt (lit (js "morning")) (Alt (lit (js "afternoon")) (lit (js "evening")));
        lit (js "!");
        Rep true not_nl ].

(** [/^•\s*(...)/m] before its group, which is [greeting_body]. *)
Definition bullet_prefix : re :=
  seq [ Bol; lit bullet; Rep true is_space ].

(** [greetingPattern]: [^] and the group [greeting_body]; the handlers run
    it with the flags [gm]. *)
Definition greetingPattern : re := Cat Bol greeting_body.

(** [/\n\n+/g] *)
Definition blank_lines : re := seq [ Chr is_nl; Chr is_nl; Rep true is_nl ].

(** [/^Hello!\s*Here is what happened[^\n]*\n?/im] *)
Definition hello_line : re :=
  seq [ Bol; lit_ci (js "Hello!"); Rep true is_space;
        lit_ci (js "Here is what happened"); Rep true not_nl; opt (Chr is_nl) ].

(** [/^✅\s*Payment (Confirmed|Required)\s*\n?\n?/gim] *)
Definition payment_banner : re :=
  seq [ Bol; lit_ci check_mark; Rep true is_space; lit_ci (js "Payment ");
        Alt (lit_ci (js "Confirmed")) (lit_ci (js "Required"));
        Rep true is_space; opt (Chr is_nl); opt (Chr is_nl) ].

(** [/💳\s*\*\*Payment Required\*\*[\s\S]*?automatically\./gi] *)
Definition payment_prompt : re :=
  seq [ lit_ci credit_card; Rep true is_space; lit_ci (js "**Payment Required**");
        Rep false any; lit_ci (js "automatically.") ].

(** [/🔗\s*\*\*Pay.*?\n/gi] *)
Definition payment_link_line : re :=
  seq [ lit_ci link_symbol; Rep true is_space; lit_ci (js "**Pay");
        Rep false dot; Chr is_nl ].

(** [/https?:\/\/[^\s]*pay[^\s]*/gi] *)
Definition payment_url : re :=
  seq [ lit_ci (js "http"); opt (Chr (eq_ci 115)); lit_ci (js "://");
        Rep true not_space; lit_ci (js "pay"); Rep true not_space ].

(** [/To summarise this channel, please pay.*?via x402\./gi] *)
Definition payment_sentence : re :=
  seq [ lit_ci (js "To summarise this channel, please pay"); Rep false dot;
        lit_ci (js "via x402.") ].

(** [/\[\d{4}-\d{2}-\d{2}T[^\]]+\]/g] *)
Definition iso_timestamp : re :=
  seq [ lit (js "["); Chr is_digit; Chr is_digit; Chr is_digit; Chr is_digit;
        lit (js "-"); Chr is_digit; Chr is_digit;
        lit (js "-"); Chr is_digit; Chr is_digit; lit (js "T");
        Chr not_rbracket; Rep true not_rbracket; lit (js "]") ].

(** [/\[[^\]]*\d{4}[^\]]*\]/g] *)
Definition bracketed_timestamp : re :=
  seq [ lit (js "["); Rep true not_rbracket;
        Chr is_digit; Chr is_digit; Chr is_digit; Chr is_digit;
        Rep true not_rbracket; lit (js "]") ].

(** [/x402 Summariser[^\n]*\n?/gi] *)
Definition summariser_prefix : re :=
  seq [ lit_ci (js "x402 Summariser"); Rep true not_nl; opt (Chr is_nl) ].

(** "Fix greeting if it appears as a bullet point". *)
Definition fix_bullet_greeting (s : jsstring) : jsstring :=
  keep_group_first bullet_prefix greeting_body None s.

(** The replacer of the duplicate-greeting step; its state is the variable
    [firstGreetingIndex], of which only "still -1" or "set" is ever read. *)
Definition keep_first_greeting (seen : bool) (m : jsstring) : bool * jsstring :=
  if seen then (true, []) else (true, m).

(** "Remove any duplicate greeting lines (keep only the first one)",
    then [.replace(/\n\n+/g, "\n\n").trim()]. *)
Definition replace_greetings (s : jsstring) : jsstring :=
  replace_all_with greetingPattern keep_first_greeting false O None s.

Definition dedupe_greetings (s : jsstring) : jsstring :=
  trim (replace_all blank_lines (LF ++ LF) (replace_greetings s)).

(** "Remove "Hello!" style greetings". *)
Definition remove_hello (s : jsstring) : jsstring :=
  replace_first hello_line [] None s.

(** "Remove payment-related prefixes that might have been included". *)
Definition remove_payment_fragments (s : jsstring) : jsstring :=
  trim (replace_all payment_sentence []
       (replace_all payment_url []
       (replace_all payment_link_line []
       (replace_all payment_prompt []
       (replace_all payment_banner [] s))))).

(** "Remove timestamps if they somehow got through" (Discord handler only). *)
Definition remove_timestamps (s : jsstring) : jsstring :=
  trim (replace_all summariser_prefix []
       (replace_all bracketed_timestamp []
       (replace_all iso_timestamp [] s))).

(** The chain of [handleTelegramCallback], from the first [replace] to the
    [trim] that ends the payment step. *)
Definition clean_telegram (s : jsstring) : jsstring :=
  remove_payment_fragments (remove_hello (dedupe_greetings (fix_bullet_greeting s))).

(** The chain of [handleDiscordCallback], which adds the timestamp step. *)
Definition clean_discord (s : jsstring) : jsstring :=
  remove_timestamps (clean_telegram s).

Definition no_content : jsstring :=
  js "No material updates or chatter in this window.".

(** [if (!summary) summary = "No material ..."; ... summary.trim()] *)
Definition or_no_content (summary : jsstring) : jsstring :=
  trim (if truthy_string summary then summary else no_content).

(** *** Text with nothing for the chain to remove *)

(** [/^•\s*(...)/m] as a whole, and three line feeds in a row. *)
Definition bullet_greeting : re := Cat bullet_prefix greeting_body.
Definition triple_newline : re := lit (LF ++ LF ++ LF).

Definition at_most_one (r : re) (s : jsstring) : bool :=
  bool_decide (length (match_all r O None s) ≤ 1)%nat.

(** Clean text for the Telegram chain: it is trimmed, has no greeting after
    a bullet, at most one greeting, no run of three line feeds, and none of
    the fragments that the later steps delete. *)
Definition clean_for_telegram (s : jsstring) : bool :=
  bool_decide (trim s = s)
  && no_match bullet_greeting s
  && at_most_one greetingPattern s
  && no_match triple_newline s
  && no_match hello_line s
  && no_match payment_banner s
  && no_match payment_prompt s
  && no_match payment_link_line s
  && no_match payment_url s
  && no_match payment_sentence s.

(** Clean text for the Discord chain: also free of timestamps and of the
    summariser's name. *)
Definition clean_for_discord (s : jsstring) : bool :=
  clean_for_telegram s
  && no_match iso_timestamp s
  && no_match bracketed_timestamp s
  && no_match summariser_prefix s.

End Sanitize.
Export Sanitize.

(* ===================================================================== *)
(** ** JSON values *)
(* ===================================================================== *)

Module Json.

(** A parsed JSON value.  Numbers are kept as integers: the handlers only
    test them for truthiness.  An object lists its properties, each name
    once. *)
#[warnings="-register-all"]
Inductive json : Type :=
| JNull
| JBool (b : bool)
| JNum (z : Z)
| JStr (s : jsstring)
| JArr (items : list json)
| JObj (fields : list (string * json)).

Fixpoint assoc (k : string) (fs : list (string * json)) : option json :=
  match fs with
  | [] => None
  | (k', v) :: fs' => if String.eqb k k' then Some v else assoc k fs'
  end.

(** [v?.k]; [None] stands for [undefined]. *)
Definition get (v : option json) (k : string) : option json :=
  match v with
  | Some (JObj fs) => assoc k fs
  | _ => None
  end.

Definition truthy (v : option json) : bool :=
  match v with
  | None | Some JNull => false
  | Some (JBool b) => b
  | Some (JNum z) => negb (z =? 0)%Z
  | Some (JStr s) => truthy_string s
  | Some (JArr _) | Some (JObj _) => true
  end.

(** [a || b] *)
Definition or_else (a b : option json) : option json :=
  if truthy a then a else b.

End Json.
Export Json.

(* ===================================================================== *)
(** ** [pending.ts]: the registries *)
(* ===================================================================== *)

Module Discord.
Record CallbackData : Type := {
  applicationId : jsstring;
  channelId : jsstring;
  guildId : option jsstring;
  lookbackMinutes : Z;
  paymentMessageId : option jsstring;
  expiresAt : Z
}.
End Discord.

Module Telegram.
Record CallbackData : Type := {
  chatId : Z;
  threadId : option Z;
  messageId : option Z;
  paymentMessageId : option Z;
  username : option jsstring;
  lookbackMinutes : option Z;   (* for the summarise command *)
  topic : option jsstring;      (* for the search_events command *)
  location : option jsstring;
  expiresAt : Z
}.
End Telegram.

Module Search.
Record State : Type := {
  events : list json;
  topic : jsstring;
  location : option jsstring;
  offset : nat;      (* Current offset (0, 5, 10, etc.) *)
  expiresAt : Z      (* Expire after 1 hour *)
}.
End Search.

Module Pending.

(** [new Map<string, DiscordCallbackData>()] and its Telegram twin, keyed by
    the callback token; [new Map<number, SearchState>()], keyed by chat id. *)
Abbreviation DiscordCallbacks := (gmap jsstring Discord.CallbackData).
Abbreviation TelegramCallbacks := (gmap jsstring Telegram.CallbackData).
Abbreviation SearchStates := (gmap Z Search.State).

(** One pass of the clean-up loop that [setInterval] runs every 30 minutes:
    every entry with [expiresAt < now] is deleted. *)
Definition sweep_discord (now : Z) (m : DiscordCallbacks) : DiscordCallbacks :=
  filter (fun kv => ¬ (Discord.expiresAt kv.2 < now)%Z) m.

Definition sweep_telegram (now : Z) (m : TelegramCallbacks) : TelegramCallbacks :=
  filter (fun kv => ¬ (Telegram.expiresAt kv.2 < now)%Z) m.

Definition sweep (now : Z) (st : DiscordCallbacks * TelegramCallbacks)
  : DiscordCallbacks * TelegramCallbacks :=
  (sweep_discord now st.1, sweep_telegram now st.2).

End Pending.
Export Pending.

(* ===================================================================== *)
(** ** The platform, as the handlers see it *)
(* ===================================================================== *)

Module Platform.

(** What an awaited [fetch] turned into: a response with [ok], a response
    without it, or a rejected promise. *)
Inductive fetch_outcome : Type := FetchOk | FetchNotOk | FetchThrows.

(** The network during one delivery: the outcome of the post of the
    message, the outcome of the edit or deletion of the payment prompt, and
    whether the five-second timer of [Promise.race] fired before the posting
    task settled. *)
Record net : Type := {
  post_outcome : fetch_outcome;
  cleanup_outcome : fetch_outcome;
  timed_out : bool
}.

(** The requests a handler sends to a chat platform. *)
Inductive platform_call : Type :=
| DiscordPost (url content : jsstring)      (* POST followupUrl { content } *)
| DiscordPatch (url content : jsstring)     (* PATCH followupUrl/messages/id *)
| TelegramSendMessage (botToken : jsstring) (chat_id : Z) (text : jsstring)
    (markdown : bool)
| TelegramDeleteMessage (botToken : jsstring) (chat_id message_id : Z).

(** Whether a call posts a message to the conversation. *)
Definition is_post (c : platform_call) : bool :=
  match c with
  | DiscordPost _ _ | TelegramSendMessage _ _ _ _ => true
  | DiscordPatch _ _ | TelegramDeleteMessage _ _ _ => false
  end.

(** How many of the calls post a message. *)
Fixpoint posts (calls : list platform_call) : nat :=
  match calls with
  | [] => 0
  | c :: calls' => ((if is_post c then 1 else 0) + posts calls')%nat
  end.

(** The task raced against the timer: it posts the message; when the
    response is [ok] and there is a payment prompt it goes on to [cleanup].
    The result is the calls it issued and whether it threw. *)
Definition posting_task (n : net) (post : platform_call)
    (cleanup : option platform_call) : list platform_call * bool :=
  match post_outcome n with
  | FetchThrows => ([post], true)
  | FetchNotOk => ([post], false)
  | FetchOk =>
      match cleanup with
      | None => ([post], false)
      | Some c =>
          ([post; c],
           match cleanup_outcome n with FetchThrows => true | _ => false end)
      end
  end.

(** [try { await Promise.race([task, timer]) } catch { setTimeout(retry, 100) }]:
    the calls of the task, which the timer does not cancel, followed by the
    one post of the retry when the race was rejected. *)
Definition race_with_retry (n : net) (post : platform_call)
    (cleanup : option platform_call) (retry : platform_call) : list platform_call :=
  let '(calls, threw) := posting_task n post cleanup in
  if threw || timed_out n then calls ++ [retry] else calls.

(** The responses of the callback endpoints: [{ success: true }], or an
    error body with its status. *)
Inductive response : Type :=
| Success
| Error (status : Z) (error : jsstring).

End Platform.
Export Platform.

(* ===================================================================== *)
(** ** The callback dispatcher *)
(* ===================================================================== *)

Module Dispatcher.

(** The body of a callback request after [req.json()] and the destructuring
    [{ discord_token, result }] (or [telegram_token]): the token, when the
    property is there, is a string. *)
Record callback_body : Type := {
  token : option jsstring;
  result : option json
}.

(** A value on which a string method is called: a string goes through, any
    other value has no such method and the call throws. *)
Definition as_string (v : option json) : option jsstring :=
  match v with
  | Some (JStr s) => Some s
  | _ => None
  end.

(** The text posted for a summary by [handleDiscordCallback] and by
    [handleTelegramCallback]. *)
Definition discord_content (summary : jsstring) : jsstring :=
  or_no_content (clean_discord summary).

Definition telegram_text (summary : jsstring) : jsstring :=
  or_no_content (clean_telegram (trim summary)).

Section Handlers.
(** [decodeURIComponent]; [None] when it throws a [URIError]. *)
Variable decodeURIComponent : jsstring -> option jsstring.

(** [process.env.DISCORD_API_BASE_URL ?? DISCORD_API_DEFAULT_BASE] *)
Variable baseUrl : jsstring.

Definition internal_error : response := Error 500 (js "Internal server error").

(** [handleDiscordCallback].  [body] is [None] when [req.json()] rejects. *)
Definition handleDiscordCallback (n : net) (body : option callback_body)
    (pendingDiscordCallbacks : DiscordCallbacks)
  : response * DiscordCallbacks * list platform_call :=
  match body with
  | None => (internal_error, pendingDiscordCallbacks, [])
  | Some b =>
    match token b with
    | None | Some [] =>
        (Error 400 (js "Missing discord_token"), pendingDiscordCallbacks, [])
    | Some discord_token =>
      match decodeURIComponent discord_token with
      | None => (internal_error, pendingDiscordCallbacks, [])
      | Some decodedToken =>
        match pendingDiscordCallbacks !! decodedToken with
        | None =>
            (Error 404 (js "Invalid or expired callback token"),
             pendingDiscordCallbacks, [])
        | Some callbackData =>
          (* Remove from pending immediately *)
          let pending' := delete decodedToken pendingDiscordCallbacks in
          let followupUrl :=
            baseUrl ++ js "/webhooks/" ++ Discord.applicationId callbackData
                    ++ js "/" ++ decodedToken in
          let output := or_else (get (result b) "output") (result b) in
          match as_string (or_else (get output "summary")
                                   (Some (JStr (js "No summary available")))) with
          | None => (internal_error, pending', [])
          | Some summary =>
            let content := discord_content summary in
            let post := DiscordPost followupUrl content in
            let edit :=
              match Discord.paymentMessageId callbackData with
              | Some id =>
                  if truthy_string id then
                    Some (DiscordPatch (followupUrl ++ js "/messages/" ++ id)
                            (check_mark ++ js " Payment received. Summary posted below."))
                  else None
              | None => None
              end in
            (Success, pending', race_with_retry n post edit post)
          end
        end
      end
    end
  end.

(** [process.env.TELEGRAM_BOT_TOKEN] *)
Variable botToken : option jsstring.

(** The events kept for pagination: [output.allEvents || output.events],
    which the handler takes to be an array. *)
Definition all_events (output : option json) : list json :=
  match or_else (get output "allEvents") (get output "events") with
  | Some (JArr l) => l
  | _ => []
  end.

Definition is_array (v : option json) : bool :=
  match v with Some (JArr _) => true | _ => false end.

(** [handleTelegramCallback].  [now] is the value of [Date.now()] when the
    search state is stored. *)
Definition handleTelegramCallback (n : net) (now : Z) (body : option callback_body)
    (pendingTelegramCallbacks : TelegramCallbacks) (searchState : SearchStates)
  : response * TelegramCallbacks * SearchStates * list platform_call :=
  match body with
  | None => (internal_error, pendingTelegramCallbacks, searchState, [])
  | Some b =>
    match token b with
    | None | Some [] =>
        (Error 400 (js "Missing telegram_token"), pendingTelegramCallbacks,
         searchState, [])
    | Some telegram_token =>
      match decodeURIComponent telegram_token with
      | None => (internal_error, pendingTelegramCallbacks, searchState, [])
      | Some decodedToken =>
        match pendingTelegramCallbacks !! decodedToken with
        | None =>
            (Error 404 (js "Invalid or expired callback token"),
             pendingTelegramCallbacks, searchState, [])
        | Some callbackData =>
          (* Remove from pending immediately *)
          let pending' := delete decodedToken pendingTelegramCallbacks in
          match botToken with
          | None | Some [] =>
              (Error 500 (js "Telegram bot token missing"), pending', searchState, [])
          | Some bot =>
            let output := or_else (get (result b) "output") (result b) in
            let chat := Telegram.chatId callbackData in
            let deliver (search' : SearchStates) (isSearchCallback : bool)
                        (messageText : jsstring) :=
              let send :=
                TelegramSendMessage bot chat messageText
                  (isSearchCallback || includes (js "[") messageText) in
              let del :=
                match truthy_number (Telegram.paymentMessageId callbackData) with
                | Some id => Some (TelegramDeleteMessage bot chat id)
                | None => None
                end in
              (Success, pending', search', race_with_retry n send del send) in
            match Telegram.topic callbackData with
            | Some topic =>
              (* For search_events: use formattedMessage directly *)
              match as_string (or_else (get output "formattedMessage")
                              (or_else (get output "text") (Some (JStr [])))) with
              | None => (internal_error, pending', searchState, [])
              | Some text =>
                let messageText :=
                  if truthy_string (trim text) then trim text
                  else js "No events found. Please try a different search query." in
                let search' :=
                  if truthy (get output "events") && is_array (get output "events")
                  then
                    match all_events output with
                    | [] => searchState
                    | allEvents =>
                        <[ chat := {| Search.events := allEvents;
                                      Search.topic := topic;
                                      Search.location := Telegram.location callbackData;
                                      Search.offset := 0;
                                      Search.expiresAt := (now + 60 * 60 * 1000)%Z |} ]>
                          searchState
                    end
                  else searchState in
                deliver search' true messageText
              end
            | None =>
              (* For summarise: process summary with cleaning *)
              match as_string (or_else (get output "summary")
                              (or_else (get output "text") (Some (JStr [])))) with
              | None => (internal_error, pending', searchState, [])
              | Some text =>
                deliver searchState false (telegram_text text)
              end
            end
          end
        end
      end
    end
  end.

End Handlers.

End Dispatcher.
Export Dispatcher.

(* ===================================================================== *)
(** ** [telegram.ts]: command intake and pagination *)
(* ===================================================================== *)

Module Intake.

(** [s.split(/\s+/)]: the pieces between the runs of white space. *)
Fixpoint split_spaces (in_run : bool) (cur : jsstring) (s : jsstring) : list jsstring :=
  match s with
  | [] => [cur]
  | c :: s' =>
      if is_space c then
        if in_run then split_spaces true cur s'
        else cur :: split_spaces true [] s'
      else split_spaces false (cur ++ [c]) s'
  end.

Definition DEFAULT_LOOKBACK_MINUTES : Z := 60.

(** What the bot sends to the chat: a plain reply, or the payment prompt
    with its button; the button is given by the search parameters of its
    link to [/pay]. *)
Inductive bot_reply : Type :=
| Reply (text : jsstring)
| PaymentPrompt (text : jsstring) (params : list (string * jsstring)).

(** The parts of the update a command handler reads. *)
Record context : Type := {
  text : option jsstring;          (* ctx.message?.text *)
  chat_id : option Z;              (* ctx.chat?.id *)
  message_thread_id : option Z;
  message_id : option Z;
  from_username : option jsstring
}.

Definition cross_mark : jsstring := [10060].   (* U+274C *)
Definition coin : jsstring := [55358; 56985].  (* U+1FA99 *)

Section Commands.
(** [./constants] and [./lookback] are not part of the sources at hand. *)
Variable PAYMENT_CALLBACK_EXPIRY_MS : Z.
Variable validateLookback : jsstring -> jsstring + Z.
Variable encodeURIComponent : jsstring -> jsstring.

(** [extractLookback]: an error message or the minutes. *)
Definition extractLookback (text : option jsstring) : jsstring + Z :=
  match text with
  | None | Some [] => inr DEFAULT_LOOKBACK_MINUTES
  | Some t =>
      match split_spaces false [] (trim t) with
      | _ :: candidate :: _ => validateLookback candidate
      | _ => inr DEFAULT_LOOKBACK_MINUTES
      end
  end.

(** The token [`${chatId}:${Date.now()}:${crypto.randomUUID()}`]. *)
Definition mint_token (chatId now : Z) (uuid : jsstring) : jsstring :=
  string_of_Z chatId ++ js ":" ++ string_of_Z now ++ js ":" ++ uuid.

(** [bot.command("summarise")].  [now], [uuid], [sent] and [now'] are
    what [Date.now()], [crypto.randomUUID()], the id of the message sent
    by [ctx.reply] and the second [Date.now()] evaluate to. *)
Definition summarise (ctx : context) (now : Z) (uuid : jsstring) (sent : Z) (now' : Z)
    (pendingTelegramCallbacks : TelegramCallbacks)
  : list bot_reply * TelegramCallbacks :=
  match extractLookback (text ctx) with
  | inl error =>
      ([Reply (cross_mark ++ js " " ++ error ++ LF ++ LF ++ js "Usage: /summarise 60")],
       pendingTelegramCallbacks)
  | inr lookbackMinutes =>
      match truthy_number (chat_id ctx) with
      | None =>
          ([Reply (cross_mark ++ js " Could not determine chat id.")],
           pendingTelegramCallbacks)
      | Some chatId =>
          let token := mint_token chatId now uuid in
          let prompt :=
            PaymentPrompt
              (coin ++ js " *Payment Required*" ++ LF ++ LF
                 ++ js "We'll summarise the last " ++ string_of_Z lookbackMinutes
                 ++ js " minutes of this chat.")
              [("source", js "telegram");
               ("telegram_callback", encodeURIComponent token);
               ("chatId", string_of_Z chatId);
               ("lookbackMinutes", string_of_Z lookbackMinutes)] in
          ([prompt],
           <[ token := {| Telegram.chatId := chatId;
                          Telegram.threadId := message_thread_id ctx;
                          Telegram.messageId := message_id ctx;
                          Telegram.paymentMessageId := Some sent;
                          Telegram.username := from_username ctx;
                          Telegram.lookbackMinutes := Some lookbackMinutes;
                          Telegram.topic := None;
                          Telegram.location := None;
                          Telegram.expiresAt :=
                            (now' + PAYMENT_CALLBACK_EXPIRY_MS)%Z |} ]>
             pendingTelegramCallbacks)
      end
  end.

(** [bot.command("search_events")] from the point where
    [parseSearchEventsCommand] has returned a topic and a location. *)
Definition search_events (ctx : context) (topic : jsstring) (location : option jsstring)
    (now : Z) (uuid : jsstring) (sent : Z) (now' : Z)
    (pendingTelegramCallbacks : TelegramCallbacks)
  : list bot_reply * TelegramCallbacks :=
  match truthy_number (chat_id ctx) with
  | None =>
      ([Reply (cross_mark ++ js " Could not determine chat id.")],
       pendingTelegramCallbacks)
  | Some chatId =>
      let token := mint_token chatId now uuid in
      let located :=
        match location with
        | Some l => if truthy_string l then Some l else None
        | None => None
        end in
      let searchDescription :=
        match located with
        | Some l => js "Searching for *" ++ topic ++ js "* events in *" ++ l ++ js "*"
        | None => js "Searching for *" ++ topic ++ js "* events"
        end in
      let prompt :=
        PaymentPrompt
          (coin ++ js " *Payment Required*" ++ LF ++ LF ++ searchDescription)
          ([("source", js "telegram");
            ("telegram_callback", encodeURIComponent token);
            ("chatId", string_of_Z chatId);
            ("topic", topic)]
           ++ match located with Some l => [("location", l)] | None => [] end) in
      ([prompt],
       <[ token := {| Telegram.chatId := chatId;
                      Telegram.threadId := message_thread_id ctx;
                      Telegram.messageId := message_id ctx;
                      Telegram.paymentMessageId := Some sent;
                      Telegram.username := from_username ctx;
                      Telegram.lookbackMinutes := None;
                      Telegram.topic := Some topic;
                      Telegram.location := location;
                      Telegram.expiresAt :=
                        (now' + PAYMENT_CALLBACK_EXPIRY_MS)%Z |} ]>
         pendingTelegramCallbacks)
  end.

(** The end of the background task of [handleDiscordInteraction] once the
    payment prompt has been sent: the interaction is recorded under its
    own token. *)
Definition record_discord_interaction (interaction_token application_id : jsstring)
    (channel_id : jsstring) (guild_id : option jsstring) (lookbackMinutes : Z)
    (paymentMessageId : option jsstring) (now : Z)
    (pendingDiscordCallbacks : DiscordCallbacks) : DiscordCallbacks :=
  <[ interaction_token :=
       {| Discord.applicationId := application_id;
          Discord.channelId := channel_id;
          Discord.guildId := guild_id;
          Discord.lookbackMinutes := lookbackMinutes;
          Discord.paymentMessageId := paymentMessageId;
          Discord.expiresAt := (now + PAYMENT_CALLBACK_EXPIRY_MS)%Z |} ]>
    pendingDiscordCallbacks.
End Commands.

End Intake.
Export Intake.

Module Pagination.

(** [a.slice(from, to)] for [0 <= from <= to]. *)
Definition slice {A : Type} (from to : nat) (l : list A) : list A :=
  take (to - from) (drop from l).

Definition no_recent_search : jsstring :=
  cross_mark ++ js " No recent search found. Please use /search_events first."
    ++ LF ++ LF ++ js "Example: /search_events on crypto in Dubai".

Definition seen_all_events : jsstring :=
  check_mark ++ js " You've seen all events from your last search. Try a new search!".

Section More.
(** [formatEventsForTelegram(events, totalEvents, startIndex)] of [./luma]. *)
Variable formatEventsForTelegram : list json -> nat -> nat -> jsstring.

(** [bot.command("more")].  [now] and [now'] are the two values of
    [Date.now()].  The handler updates the state object in place, which
    is the object the map holds. *)
Definition more (chatId : option Z) (now now' : Z) (searchState : SearchStates)
  : jsstring * SearchStates :=
  match truthy_number chatId with
  | None => (cross_mark ++ js " Could not determine chat id.", searchState)
  | Some chat =>
      match searchState !! chat with
      | None => (no_recent_search, searchState)
      | Some state =>
          if bool_decide (Search.expiresAt state < now)%Z
          then (no_recent_search, searchState)
          else
            (* Check if there are more events *)
            let nextOffset := (Search.offset state + 5)%nat in
            if bool_decide (length (Search.events state) <= nextOffset)%nat
            then (seen_all_events, searchState)
            else
              let nextEvents :=
                slice nextOffset (nextOffset + 5) (Search.events state) in
              let message :=
                formatEventsForTelegram nextEvents
                  (length (Search.events state)) nextOffset in
              (message,
               <[ chat := {| Search.events := Search.events state;
                             Search.topic := Search.topic state;
                             Search.location := Search.location state;
                             Search.offset := nextOffset;
                             Search.expiresAt := (now' + 60 * 60 * 1000)%Z |} ]>
                 searchState)
      end
  end.
End More.

End Pagination.
Export Pagination.

(* ===================================================================== *)
(** ** [telegramStore.ts]: the message store *)
(* ===================================================================== *)

Module TelegramStore.

Record TelegramStoredMessage : Type := {
  messageId : Z;
  text : jsstring;
  timestampMs : Z;
  authorId : option Z;
  authorUsername : option jsstring;
  authorDisplay : option jsstring;
  replyToMessageId : option Z
}.

Definition MAX_MESSAGES_PER_CHAT : nat := 1000.

Abbreviation MessageStore := (gmap Z (list TelegramStoredMessage)).

(** [existing.splice(0, n)] removes the first [n] elements. *)
Definition addTelegramMessage (chatId : Z) (message : TelegramStoredMessage)
    (messageStore : MessageStore) : MessageStore :=
  let existing := default [] (messageStore !! chatId) in
  let existing := existing ++ [message] in
  let existing :=
    if bool_decide (MAX_MESSAGES_PER_CHAT < length existing)%nat
    then drop (length existing - MAX_MESSAGES_PER_CHAT) existing
    else existing in
  <[ chatId := existing ]> messageStore.

Definition getTelegramMessages (chatId : Z) (messageStore : MessageStore)
  : list TelegramStoredMessage :=
  default [] (messageStore !! chatId).

Definition clearTelegramMessages (chatId : Z) (messageStore : MessageStore)
  : MessageStore :=
  delete chatId messageStore.

End TelegramStore.

(* ===================================================================== *)
(** ** The payment gate in front of the entrypoints *)
(* ===================================================================== *)

Module Gate.

Record PaymentRequirement : Type := {
  scheme : jsstring;
  resource : jsstring;
  description : jsstring;
  mimeType : jsstring;
  payTo : jsstring;
  maxAmountRequired : jsstring;
  maxTimeoutSeconds : Z;
  network : jsstring;
  asset : jsstring;
  extra_name : jsstring;
  extra_version : jsstring
}.

(** The parts of the request the gate reads. *)
Record request : Type := {
  pathname : jsstring;                 (* url.pathname *)
  search : jsstring;                   (* url.search *)
  x_payment : option jsstring;         (* req.headers.get("X-PAYMENT") *)
  discord_callback : option jsstring   (* url.searchParams.get("discord_callback") *)
}.

(** A response of the agent app.  Header names are in lower case, as a
    [Headers] object keeps them; [parsed] is what [.json()] resolves to,
    [None] when it rejects. *)
Record app_response : Type := {
  status : Z;
  statusText : jsstring;
  headers : gmap string jsstring;
  body : jsstring;
  parsed : option json
}.

(** What the gate returns: [Response.json({ error?, accepts, payer?,
    x402Version }, { status: 402 })], or a response with the status, headers
    and body of the app. *)
Inductive gate_response : Type :=
| PaymentRequired (error : option jsstring) (accepts : list PaymentRequirement)
    (payer : option jsstring)
| AppResponse (r : app_response).

Definition status_of (r : gate_response) : Z :=
  match r with
  | PaymentRequired _ _ _ => 402
  | AppResponse a => status a
  end.

(** The calls the gate makes to its collaborators, in order. *)
Inductive gate_call : Type :=
| Verify
| InvokeWorker                       (* app.fetch(req) *)
| Settle
| PostDiscordCallback (discord_token : jsstring) (result : json).

Record Verification : Type := {
  isValid : bool;
  invalidReason : option jsstring;
  verified_payer : option jsstring
}.

Record environment : Type := {
  PAY_TO : option jsstring;
  AGENT_URL : option jsstring;
  ENTRYPOINT_PRICE : option jsstring;
  PAYMENT_CURRENCY : option jsstring
}.

(** [v || fallback] for a string that may be undefined, as in
    [process.env.X || fallback]. *)
Definition or_default (v : option jsstring) (fallback : jsstring) : jsstring :=
  match v with
  | Some x => if truthy_string x then x else fallback
  | None => fallback
  end.

Definition is_slash (c : N) : bool := c =? 47.

(** [/^\/+/] and [/\/+$/] *)
Definition leading_slashes : re := seq [ Boi; Chr is_slash; Rep true is_slash ].
Definition trailing_slashes : re := seq [ Chr is_slash; Rep true is_slash; Eoi ].

Section Entrypoints.
(** The x402 library, the facilitator and the agent app. *)
Variable Payment : Type.
Variable Settlement : Type.
Variable toLowerCase : jsstring -> jsstring.
Variable decodeURIComponent : jsstring -> option jsstring.
Variable decodePayment : jsstring -> option Payment.
Variable findMatchingPaymentRequirements :
  list PaymentRequirement -> Payment -> option PaymentRequirement.
Variable verify : Payment -> PaymentRequirement -> option Verification.
Variable settle : Payment -> PaymentRequirement -> option Settlement.
Variable success : Settlement -> bool.
Variable settleResponseHeader : Settlement -> jsstring.
Variable app_fetch : request -> app_response.
Variable env : environment.

Definition isSummariseEndpoint (path : jsstring) : bool :=
  includes (js "summarise%20chat") path
  || includes (js "summarise chat") path
  || includes (js "summarise%20telegram%20chat") path
  || includes (js "summarise telegram chat") path.

Definition isSearchEndpoint (path : jsstring) : bool :=
  includes (js "search%20luma%20events") path
  || includes (js "search luma events") path.

(** The condition under which a request goes through the gate. *)
Definition gated (path : jsstring) : bool :=
  includes (js "/entrypoints/") path && includes (js "/invoke") path
  && (isSummariseEndpoint path || isSearchEndpoint path).

Definition sourceLabel (path : jsstring) : jsstring :=
  if isSearchEndpoint path then js "Search Luma events"
  else if includes (js "telegram") path then js "Summarise Telegram chat"
  else js "Summarise Discord channel".

Definition fullEntrypointUrl (req : request) : jsstring :=
  let agentBaseUrl :=
    or_default (AGENT_URL env) (js "https://x402-summariser-production.up.railway.app") in
  let normalizedPath := replace_first leading_slashes (js "/") None (pathname req) in
  replace_first trailing_slashes [] None agentBaseUrl ++ normalizedPath ++ search req.

Definition paymentRequirement (req : request) : PaymentRequirement :=
  let price := or_default (ENTRYPOINT_PRICE env) (js "0.05") in
  let currency := or_default (PAYMENT_CURRENCY env) (js "USDC") in
  {| scheme := js "exact";
     resource := fullEntrypointUrl req;
     description :=
       sourceLabel (pathname req) ++ js " - Pay $" ++ price ++ js " " ++ currency;
     mimeType := js "application/json";
     payTo :=
       toLowerCase (or_default (PAY_TO env) (js "0x1b0006dbfbf4d8ec99cd7c40c43566eaa7d95fed"));
     maxAmountRequired := js "50000";
     maxTimeoutSeconds := 300;
     network := js "base";
     asset := js "0x833589fCD6eDb6E08f4c7C32D4f71b54bdA02913";
     extra_name := js "USD Coin";
     extra_version := js "2" |}.

(** Headers of the final response: those of the app, a default
    [Content-Type], and the settlement header when there is one. *)
Definition with_content_type (h : gmap string jsstring) : gmap string jsstring :=
  match h !! "content-type" with
  | Some _ => h
  | None => <[ "content-type" := js "application/json" ]> h
  end.

Definition response_headers (h : gmap string jsstring) (settlement : option Settlement)
  : gmap string jsstring :=
  match settlement with
  | Some s =>
      if success s
      then <[ "x-payment-response" := settleResponseHeader s ]> (with_content_type h)
      else with_content_type h
  | None => with_content_type h
  end.

(** The call to [/discord-callback] that follows a paid Discord request. *)
Definition discord_callback_calls (req : request) (app : app_response) : list gate_call :=
  match discord_callback req with
  | Some discordCallback =>
      if truthy_string discordCallback
         && bool_decide (200 <= status app)%Z && bool_decide (status app < 300)%Z
      then
        match parsed app, decodeURIComponent discordCallback with
        | Some result, Some token => [PostDiscordCallback token result]
        | _, _ => []
        end
      else []
  | None => []
  end.

(** The branch of the server's [fetch] for the entrypoint routes, down to
    the final [return app.fetch(req)]. *)
Definition entrypoint (req : request) : gate_response * list gate_call :=
  if negb (gated (pathname req)) then (AppResponse (app_fetch req), [InvokeWorker])
  else
    let paymentRequirements := [paymentRequirement req] in
    match x_payment req with
    | None | Some [] => (PaymentRequired None paymentRequirements None, [])
    | Some hasPaymentHeader =>
      match decodePayment hasPaymentHeader with
      | None =>
          (PaymentRequired (Some (js "Invalid or malformed payment header"))
             paymentRequirements None, [])
      | Some decodedPayment =>
        match findMatchingPaymentRequirements paymentRequirements decodedPayment with
        | None =>
            (PaymentRequired (Some (js "Unable to match payment requirements"))
               paymentRequirements None, [])
        | Some selectedPaymentRequirements =>
          match verify decodedPayment selectedPaymentRequirements with
          | None =>
              (PaymentRequired (Some (js "Failed to verify payment"))
                 paymentRequirements None, [Verify])
          | Some verification =>
            if negb (isValid verification) then
              (PaymentRequired
                 (Some (or_default (invalidReason verification)
                               (js "Payment verification failed")))
                 paymentRequirements (verified_payer verification), [Verify])
            else
              let appResponse := app_fetch req in
              if bool_decide (400 <= status appResponse)%Z
              then (AppResponse appResponse, [Verify; InvokeWorker])
              else
                let settlement := settle decodedPayment selectedPaymentRequirements in
                let responseWithHeader :=
                  {| status := status appResponse;
                     statusText := statusText appResponse;
                     headers := response_headers (headers appResponse) settlement;
                     body := body appResponse;
                     parsed := parsed appResponse |} in
                (AppResponse responseWithHeader,
                 [Verify; InvokeWorker; Settle]
                   ++ discord_callback_calls req appResponse)
          end
        end
      end
    end.
End Entrypoints.

End Gate.

(* ===================================================================== *)
(** * The vocabulary of the statements *)
(* ===================================================================== *)

Module Statements.
Import TelegramStore.
Local Close Scope N_scope.

(** The last [n] elements of a list. *)
Definition last_n {A : Type} (n : nat) (l : list A) : list A :=
  drop (length l - n) l.

(** The store after a sequence of calls [addTelegramMessage(chatId, message)]. *)
Definition add_all (calls : list (Z * TelegramStoredMessage)) (st : MessageStore)
  : MessageStore :=
  foldl (fun st cm => addTelegramMessage cm.1 cm.2 st) st calls.

(** The messages of the calls made for one chat, in call order. *)
Definition added_to (chatId : Z) (calls : list (Z * TelegramStoredMessage))
  : list TelegramStoredMessage :=
  (filter (fun cm => cm.1 = chatId) calls).*2.

(** The offset of the search state of a chat, when there is one. *)
Definition offset_of (chat : Z) (st : SearchStates) : option nat :=
  Search.offset <$> st !! chat.

(** What a settlement attempt came to when it did not succeed: [settle]
    threw, or resolved to a result without [success]. *)
Definition settlement_failed {Settlement : Type} (success : Settlement -> bool)
    (o : option Settlement) : Prop :=
  match o with
  | None => True
  | Some s => success s = false
  end.

(** A delivery during which no request throws and the timer does not fire. *)
Definition uneventful (n : net) : Prop :=
  post_outcome n ≠ FetchThrows ∧ cleanup_outcome n ≠ FetchThrows ∧ timed_out n = false.

(** The answer to a callback whose token is not in the registry. *)
Definition not_found : response := Error 404 (js "Invalid or expired callback token").

(** The outcomes of a delivery whose token was found. *)
Definition delivered (n : net) (r : response) (calls : list platform_call) : Prop :=
  r = Success ∧ 1 ≤ posts calls ≤ 2 ∧ (uneventful n → posts calls = 1).

Definition gave_up (r : response) (calls : list platform_call) : Prop :=
  (∃ error, r = Error 500 error) ∧ calls = [].

(** A string with no white space at its start. *)
Definition no_leading_space (s : jsstring) : Prop :=
  match s with
  | c :: _ => is_space c = false
  | [] => True
  end.

(** The text of a call that posts a message. *)
Definition posted_text (c : platform_call) : option jsstring :=
  match c with
  | DiscordPost _ content => Some content
  | TelegramSendMessage _ _ text _ => Some text
  | DiscordPatch _ _ | TelegramDeleteMessage _ _ _ => None
  end.

Definition has_text (c : platform_call) : Prop := posted_text c ≠ Some [].

(** The code unit before the position reached after reading [m]. *)
Definition prev_after (prev : option N) (m : jsstring) : option N :=
  match last m with
  | Some c => Some c
  | None => prev
  end.

(** The text left after the longest prefix in a class. *)
Fixpoint skip_while (p : N → bool) (s : jsstring) : jsstring :=
  match s with
  | c :: s' => if p c then skip_while p s' else s
  | [] => []
  end.

(** A text that begins with one of the three greetings. *)
Definition greets (s : jsstring) : bool :=
  startsWith (js "Good morning!") s
  || startsWith (js "Good afternoon!") s
  || startsWith (js "Good evening!") s.

(** The text up to the next line feed. *)
Fixpoint first_line (s : jsstring) : jsstring :=
  match s with
  | c :: s' => if not_nl c then c :: first_line s' else []
  | [] => []
  end.

(** The lines of a text, and how many of them are a given line. *)
Fixpoint lines_from (line : jsstring) (s : jsstring) : list jsstring :=
  match s with
  | [] => [line]
  | c :: s' => if (c =? 10)%N then line :: lines_from [] s' else lines_from (line ++ [c]) s'
  end.

Definition count_lines (line : jsstring) (s : jsstring) : nat :=
  length (filter (fun l => l = line) (lines_from [] s)).

End Statements.
Export Statements.

(* ===================================================================== *)
(** * Sample inputs *)
(* ===================================================================== *)

Module Samples.
Local Close Scope N_scope.

(** A search state with seven events, none shown beyond the first page. *)
Definition seven_events : Search.State :=
  {| Search.events := JNum <$> [1; 2; 3; 4; 5; 6; 7]%Z;
     Search.topic := js "ai";
     Search.location := Some (js "london");
     Search.offset := 0;
     Search.expiresAt := 5000 |}.

(** A stand-in for the formatter: the sizes it is given. *)
Definition format_sizes (events : list json) (total start : nat) : jsstring :=
  [N.of_nat (length events); N.of_nat total; N.of_nat start].

(** Sample collaborators: every payment decodes, matches and verifies, the
    app answers 200 with an empty object. *)
Definition sample_verification : Gate.Verification :=
  {| Gate.isValid := true; Gate.invalidReason := None; Gate.verified_payer := None |}.

Definition sample_app_response : Gate.app_response :=
  {| Gate.status := 200; Gate.statusText := js "OK"; Gate.headers := ∅;
     Gate.body := js "{}"; Gate.parsed := Some (JObj []) |}.

Definition no_environment : Gate.environment :=
  {| Gate.PAY_TO := None; Gate.AGENT_URL := None;
     Gate.ENTRYPOINT_PRICE := None; Gate.PAYMENT_CURRENCY := None |}.

(** The sample gate; [settle] resolves to [outcome], the settlement's
    [success] flag, or throws when [outcome] is [None]. *)
Definition sample_gate (outcome : option bool) (req : Gate.request)
  : Gate.gate_response * list Gate.gate_call :=
  Gate.entrypoint jsstring bool (fun s => s) Some Some (fun reqs _ => head reqs)
    (fun _ _ => Some sample_verification) (fun _ _ => outcome) (fun b => b)
    (fun _ => js "receipt") (fun _ => sample_app_response) no_environment req.

Definition unpaid_request : Gate.request :=
  {| Gate.pathname := js "/entrypoints/summarise%20chat/invoke"; Gate.search := [];
     Gate.x_payment := None; Gate.discord_callback := None |}.

Definition paid_request : Gate.request :=
  {| Gate.pathname := js "/entrypoints/summarise%20chat/invoke"; Gate.search := [];
     Gate.x_payment := Some (js "proof"); Gate.discord_callback := None |}.

(** Sample deliveries. *)
Definition discord_api : jsstring := js "https://discord.com/api/v10".

Definition quiet_net : net :=
  {| post_outcome := FetchOk; cleanup_outcome := FetchOk; timed_out := false |}.

(** The post takes more than five seconds, then succeeds. *)
Definition slow_net : net :=
  {| post_outcome := FetchOk; cleanup_outcome := FetchOk; timed_out := true |}.

Definition all_quiet : callback_body :=
  {| token := Some (js "tok");
     result := Some (JObj [("summary", JStr (js "All quiet."))]) |}.

(** An entry that expired at time 1000. *)
Definition old_discord_entry : Discord.CallbackData :=
  {| Discord.applicationId := js "app"; Discord.channelId := js "chan";
     Discord.guildId := None; Discord.lookbackMinutes := 60;
     Discord.paymentMessageId := None; Discord.expiresAt := 1000 |}.

Definition old_telegram_entry : Telegram.CallbackData :=
  {| Telegram.chatId := 7; Telegram.threadId := None; Telegram.messageId := None;
     Telegram.paymentMessageId := None; Telegram.username := None;
     Telegram.lookbackMinutes := Some 60%Z; Telegram.topic := None;
     Telegram.location := None; Telegram.expiresAt := 1000 |}.

(** A [/summarise 60] command in chat 42. *)
Definition summarise_60 : context :=
  {| Intake.text := Some (js "/summarise 60"); chat_id := Some 42%Z;
     message_thread_id := None; message_id := Some 5%Z;
     from_username := Some (js "ann") |}.

(** A half-hour expiry and a validator that accepts its argument as 60. *)
Definition summarise_sample :=
  summarise 1800000%Z (fun _ => inr 60%Z) (fun s => s) summarise_60.

(** A text with two opening lines of the "Hello!" kind. *)
Definition two_hellos : jsstring :=
  js "Hello! Here is what happened" ++ LF ++ js "Hello! Here is what happened".

(** A greeting, and a summary in which it is twice a line of its own and
    once more behind a leaked payment sentence. *)
Definition recap_greeting : jsstring := js "Good morning! Here is the recap.".

Definition greeting_behind_payment : jsstring :=
  recap_greeting ++ LF ++ recap_greeting ++ LF
    ++ js "To summarise this channel, please pay $0.05 via x402." ++ recap_greeting.

End Samples.
Export Samples.

(* ===================================================================== *)
(** * Properties *)
(* ===================================================================== *)

Local Close Scope N_scope.

(** ** The message store *)

Section StoreProperties.
Import TelegramStore.

Lemma last_n_length {A} n (l : list A) : length (last_n n l) ≤ n.
Proof. unfold last_n. rewrite length_drop. lia. Qed.

Lemma last_n_all {A} n (l : list A) : length l ≤ n → last_n n l = l.
Proof. intros H. unfold last_n. by replace (length l - n)%nat with 0%nat by lia. Qed.

Lemma last_n_snoc {A} n (l : list A) x :
  (0 < n)%nat → last_n n (last_n n l ++ [x]) = last_n n (l ++ [x]).
Proof.
  intros Hn. destruct (decide (length l ≤ n)) as [Hle|Hgt].
  - by rewrite (last_n_all n l).
  - unfold last_n. rewrite !length_app, length_drop. simpl.
    rewrite !drop_app_le by (rewrite ?length_drop; lia).
    rewrite drop_drop. do 2 f_equal. lia.
Qed.

Lemma addTelegramMessage_lookup chatId message st :
  getTelegramMessages chatId (addTelegramMessage chatId message st)
  = last_n MAX_MESSAGES_PER_CHAT (getTelegramMessages chatId st ++ [message]).
Proof.
  unfold getTelegramMessages, addTelegramMessage.
  rewrite lookup_insert_eq. simpl.
  case_bool_decide as Hlen; [done|].
  by rewrite last_n_all by lia.
Qed.

Lemma addTelegramMessage_other chatId chatId' message st :
  chatId ≠ chatId' →
  getTelegramMessages chatId' (addTelegramMessage chatId message st)
  = getTelegramMessages chatId' st.
Proof.
  intros Hne. unfold getTelegramMessages, addTelegramMessage.
  by rewrite lookup_insert_ne.
Qed.

Lemma add_all_messages chatId calls :
  getTelegramMessages chatId (add_all calls ∅)
  = last_n MAX_MESSAGES_PER_CHAT (added_to chatId calls).
Proof.
  induction calls as [|[c m] calls IH] using rev_ind.
  - done.
  - unfold add_all, added_to in *. rewrite foldl_app, filter_app, fmap_app. simpl.
    destruct (decide (c = chatId)) as [->|Hne].
    + rewrite addTelegramMessage_lookup, IH.
      rewrite filter_cons_True by done. simpl.
      apply last_n_snoc. unfold MAX_MESSAGES_PER_CHAT. lia.
    + rewrite addTelegramMessage_other, IH by done.
      rewrite filter_cons_False by done. simpl.
      by rewrite app_nil_r.
Qed.

(** C10. After any sequence of [addTelegramMessage] calls on the initially
    empty store, the list stored for a chat has at most 1000 messages, and
    it is the last 1000 (or all, when fewer) of the messages added for
    that chat, in the order in which they were added. *)
Theorem message_store_capped (chatId : Z) (calls : list (Z * TelegramStoredMessage)) :
  let stored := getTelegramMessages chatId (add_all calls ∅) in
  length stored ≤ 1000
  ∧ stored = last_n 1000 (added_to chatId calls)
  ∧ ∃ dropped, added_to chatId calls = dropped ++ stored.
Proof.
  simpl. rewrite add_all_messages. split; [apply last_n_length|].
  split; [done|].
  exists (take (length (added_to chatId calls) - MAX_MESSAGES_PER_CHAT)
            (added_to chatId calls)).
  unfold last_n. by rewrite take_drop.
Qed.
End StoreProperties.

(** ** Pagination *)

Section PaginationProperties.
Variable formatEventsForTelegram : list json -> nat -> nat -> jsstring.

Abbreviation more' := (more formatEventsForTelegram).

Lemma more_lookup (chatId : option Z) (now now' : Z) (st : SearchStates) (chat : Z)
    (s : Search.State) :
  st !! chat = Some s →
  ∃ s', (more' chatId now now' st).2 !! chat = Some s'
        ∧ Search.offset s ≤ Search.offset s'
        ∧ Search.events s' = Search.events s.
Proof.
  intros Hs. unfold more.
  destruct (truthy_number chatId) as [c|]; [|by eauto].
  destruct (st !! c) as [state|] eqn:Hc; [|by eauto].
  repeat case_bool_decide; simpl; eauto.
  destruct (decide (c = chat)) as [->|Hne].
  - rewrite lookup_insert_eq. eexists; split; [done|]. simplify_eq. simpl. split; [lia|done].
  - rewrite lookup_insert_ne by done. eauto.
Qed.

End PaginationProperties.


(** ** The payment gate *)

Section GateProperties.
Import Gate.
Context {Payment Settlement : Type}.
Variable toLowerCase : jsstring -> jsstring.
Variable decodeURIComponent : jsstring -> option jsstring.
Variable decodePayment : jsstring -> option Payment.
Variable findMatchingPaymentRequirements :
  list PaymentRequirement -> Payment -> option PaymentRequirement.
Variable verify : Payment -> PaymentRequirement -> option Verification.
Variable success : Settlement -> bool.
Variable settleResponseHeader : Settlement -> jsstring.
Variable app_fetch : request -> app_response.
Variable env : environment.

(** The gate with everything fixed but the facilitator's [settle]. *)
Abbreviation entrypoint_with settle :=
  (entrypoint Payment Settlement toLowerCase decodeURIComponent decodePayment
     findMatchingPaymentRequirements verify settle success settleResponseHeader
     app_fetch env).

(** C8. A request to a payment-gated entrypoint without an [X-PAYMENT]
    header is answered with status 402 and an [accepts] list of exactly one
    payment requirement, and the agent app is not called. *)
Theorem no_payment_header_challenge
    (settle : Payment -> PaymentRequirement -> option Settlement) (req : request) :
  gated (pathname req) = true →
  x_payment req = None →
  let r := entrypoint_with settle req in
  r.1 = PaymentRequired None [paymentRequirement toLowerCase env req] None
  ∧ status_of r.1 = 402%Z
  ∧ InvokeWorker ∉ r.2.
Proof.
  intros Hgated Hheader r. subst r. unfold entrypoint.
  rewrite Hgated, Hheader. simpl. split; [done|]. split; [done|].
  apply not_elem_of_nil.
Qed.

(** C9. When the payment is verified and the app answers with a status
    below 400, a settlement that throws or does not succeed leaves the
    response as it is with a successful settlement, but for the
    [X-PAYMENT-RESPONSE] header: status, status text and body are those of
    the app, the headers are those of the app with the default
    [Content-Type], and the same collaborators are called. *)
Theorem settlement_failure_keeps_result
    (settle_bad settle_ok : Payment -> PaymentRequirement -> option Settlement)
    (req : request) (header : jsstring) (p : Payment) (sel : PaymentRequirement)
    (v : Verification) (s : Settlement) :
  gated (pathname req) = true →
  x_payment req = Some header → header ≠ [] →
  decodePayment header = Some p →
  findMatchingPaymentRequirements [paymentRequirement toLowerCase env req] p = Some sel →
  verify p sel = Some v → isValid v = true →
  (status (app_fetch req) < 400)%Z →
  settlement_failed success (settle_bad p sel) →
  settle_ok p sel = Some s → success s = true →
  let app := app_fetch req in
  ∃ bad ok,
    entrypoint_with settle_bad req
      = (AppResponse bad,
         [Verify; InvokeWorker; Settle]
           ++ discord_callback_calls decodeURIComponent req app)
    ∧ entrypoint_with settle_ok req
      = (AppResponse ok,
         [Verify; InvokeWorker; Settle]
           ++ discord_callback_calls decodeURIComponent req app)
    ∧ status bad = status app ∧ statusText bad = statusText app
    ∧ body bad = body app
    ∧ headers bad = with_content_type (headers app)
    ∧ status ok = status bad ∧ statusText ok = statusText bad
    ∧ body ok = body bad
    ∧ headers ok = <[ "x-payment-response" := settleResponseHeader s ]> (headers bad).
Proof.
  intros Hgated Hheader Hne Hdec Hsel Hver Hvalid Hstatus Hbad Hok Hsucc app.
  unfold entrypoint. rewrite Hgated, Hheader. simpl.
  destruct header as [|c header]; [done|].
  rewrite Hdec, Hsel, Hver, Hvalid. simpl.
  rewrite bool_decide_eq_false_2 by lia.
  eexists _, _. split; [reflexivity|]. split; [reflexivity|]. simpl.
  repeat split.
  - unfold response_headers. destruct (settle_bad p sel) as [s'|]; [|done].
    simpl in Hbad. by rewrite Hbad.
  - unfold response_headers. rewrite Hok, Hsucc.
    destruct (settle_bad p sel) as [s'|]; [|done].
    simpl in Hbad. by rewrite Hbad.
Qed.
End GateProperties.

Lemma no_payment_header_challenge_witness :
  Gate.status_of (sample_gate (Some true) unpaid_request).1 = 402%Z
  ∧ Gate.InvokeWorker ∉ (sample_gate (Some true) unpaid_request).2.
Proof.
  refine (proj2 (no_payment_header_challenge (fun s => s) Some Some
                   (fun reqs _ => head reqs) (fun _ _ => Some sample_verification)
                   (fun b : bool => b) (fun _ => js "receipt")
                   (fun _ => sample_app_response) no_environment
                   (fun _ _ => Some true) unpaid_request _ _)).
  - reflexivity.
  - reflexivity.
Defined.

Lemma settlement_failure_keeps_result_witness :
  ∃ bad, (sample_gate None paid_request).1 = Gate.AppResponse bad
         ∧ Gate.status bad = 200%Z
         ∧ Gate.body bad = js "{}"
         ∧ Gate.headers bad = {[ "content-type" := js "application/json" ]}.
Proof.
  assert (Hnonempty : js "proof" ≠ []) by discriminate.
  assert (Hstatus : (Gate.status sample_app_response < 400)%Z) by (simpl; lia).
  destruct (settlement_failure_keeps_result (fun s => s) Some Some
              (fun reqs _ => head reqs) (fun _ _ => Some sample_verification)
              (fun b : bool => b) (fun _ => js "receipt")
              (fun _ => sample_app_response) no_environment
              (fun _ _ => None) (fun _ _ => Some true) paid_request
              (js "proof") (js "proof")
              (Gate.paymentRequirement (fun s => s) no_environment paid_request)
              sample_verification true
              eq_refl eq_refl Hnonempty eq_refl eq_refl eq_refl eq_refl Hstatus I
              eq_refl eq_refl)
    as (bad & ok & Hbad & _ & Hst & _ & Hbody & Hheaders & _).
  exists bad. split; [|split; [|split]].
  - unfold sample_gate. rewrite Hbad. reflexivity.
  - exact Hst.
  - exact Hbody.
  - exact Hheaders.
Defined.

(** ** The callback dispatcher: single use of a token *)

Lemma posts_app calls1 calls2 : posts (calls1 ++ calls2) = posts calls1 + posts calls2.
Proof. induction calls1 as [|c calls1 IH]; simpl; [done|]. rewrite IH. lia. Qed.

Lemma race_posts n post cleanup :
  is_post post = true →
  (∀ c, cleanup = Some c → is_post c = false) →
  1 ≤ posts (race_with_retry n post cleanup post) ≤ 2
  ∧ (uneventful n → posts (race_with_retry n post cleanup post) = 1).
Proof.
  intros Hpost Hcleanup. unfold race_with_retry, posting_task, uneventful.
  destruct cleanup as [c|]; [specialize (Hcleanup c eq_refl)|];
    destruct (post_outcome n), (cleanup_outcome n), (timed_out n);
    simpl; rewrite ?Hpost, ?Hcleanup; simpl; (split; [lia|]);
    intros (? & ? & ?); congruence.
Qed.

Section DispatcherProperties.
Variable decodeURIComponent : jsstring -> option jsstring.
Variable baseUrl : jsstring.
Variable botToken : option jsstring.

Abbreviation discordCallback := (handleDiscordCallback decodeURIComponent baseUrl).
Abbreviation telegramCallback := (handleTelegramCallback decodeURIComponent botToken).

Lemma discord_callback_cases (n : net) (b : callback_body) (reg : DiscordCallbacks)
    (tok t : jsstring) :
  token b = Some tok → tok ≠ [] → decodeURIComponent tok = Some t →
  match reg !! t with
  | None => discordCallback n (Some b) reg = (not_found, reg, [])
  | Some _ =>
      ∃ r calls, discordCallback n (Some b) reg = (r, delete t reg, calls)
                 ∧ (delivered n r calls ∨ gave_up r calls)
  end.
Proof.
  intros Htok Hne Hdec. unfold handleDiscordCallback. rewrite Htok.
  destruct tok as [|c tok]; [done|]. rewrite Hdec.
  destruct (reg !! t) as [e|]; [|done].
  destruct (as_string _) as [summary|].
  - eexists _, _. split; [reflexivity|]. left. split; [done|].
    apply race_posts; [done|].
    intros c'. destruct (Discord.paymentMessageId e) as [id|]; [|done].
    destruct (truthy_string id); [|done]. by intros [= <-].
  - eexists _, _. split; [reflexivity|]. right. split; [|done].
    by eexists.
Qed.

Lemma telegram_callback_cases (n : net) (now : Z) (b : callback_body)
    (reg : TelegramCallbacks) (search : SearchStates) (tok t : jsstring) :
  token b = Some tok → tok ≠ [] → decodeURIComponent tok = Some t →
  match reg !! t with
  | None => telegramCallback n now (Some b) reg search = (not_found, reg, search, [])
  | Some _ =>
      ∃ r search' calls,
        telegramCallback n now (Some b) reg search = (r, delete t reg, search', calls)
        ∧ (delivered n r calls ∨ gave_up r calls)
  end.
Proof.
  intros Htok Hne Hdec. unfold handleTelegramCallback. rewrite Htok.
  destruct tok as [|c tok]; [done|]. rewrite Hdec.
  destruct (reg !! t) as [e|]; [|done].
  assert (Hdel : ∀ bot chat c',
    match truthy_number (Telegram.paymentMessageId e) with
    | Some id => Some (TelegramDeleteMessage bot chat id)
    | None => None
    end = Some c' → is_post c' = false).
  { intros bot chat c'.
    destruct (truthy_number (Telegram.paymentMessageId e)) as [id|]; [|done].
    by intros [= <-]. }
  destruct botToken as [[|c' bot]|].
  - eexists _, _, _. split; [reflexivity|]. right. split; [by eexists|done].
  - destruct (Telegram.topic e) as [topic|]; destruct (as_string _) as [text|];
      eexists _, _, _; (split; [reflexivity|]);
      try (right; split; [by eexists|done]);
      left; (split; [done|]); apply race_posts; eauto.
  - eexists _, _, _. split; [reflexivity|]. right. split; [by eexists|done].
Qed.
End DispatcherProperties.

Section SingleUse.
Variable decodeURIComponent : jsstring -> option jsstring.
Variable baseUrl : jsstring.
Variable botToken : option jsstring.

End SingleUse.



(** ** The text that is posted *)

Lemma trimStart_no_leading_space s : no_leading_space (trimStart s).
Proof. induction s as [|c s IH]; simpl; [done|]. by destruct (is_space c) eqn:Hc. Qed.

Lemma trimStart_id s : no_leading_space s → trimStart s = s.
Proof. destruct s as [|c s]; simpl; [done|]. by intros ->. Qed.

Lemma trimStart_suffix s : ∃ spaces, s = spaces ++ trimStart s.
Proof.
  induction s as [|c s [spaces IH]]; simpl; [by exists []|].
  destruct (is_space c); [|by exists []].
  exists (c :: spaces). simpl. by rewrite <- IH.
Qed.

Lemma trimEnd_prefix s : ∃ spaces, s = trimEnd s ++ spaces.
Proof.
  unfold trimEnd. destruct (trimStart_suffix (rev s)) as [spaces H].
  exists (rev spaces). rewrite <- rev_app_distr, <- H. by rewrite rev_involutive.
Qed.

Lemma trimEnd_no_leading_space s : no_leading_space s → no_leading_space (trimEnd s).
Proof.
  destruct (trimEnd_prefix s) as [spaces H]. intros Hs. rewrite H in Hs.
  by destruct (trimEnd s).
Qed.

Lemma trimEnd_idemp s : trimEnd (trimEnd s) = trimEnd s.
Proof.
  unfold trimEnd. rewrite rev_involutive. f_equal.
  apply trimStart_id, trimStart_no_leading_space.
Qed.

Lemma trim_idemp s : trim (trim s) = trim s.
Proof.
  unfold trim. rewrite (trimStart_id (trimEnd _)).
  - apply trimEnd_idemp.
  - apply trimEnd_no_leading_space, trimStart_no_leading_space.
Qed.

Lemma or_no_content_trimmed s :
  trim s = s →
  or_no_content s = match s with [] => no_content | _ => s end.
Proof. intros Hs. unfold or_no_content. destruct s; [done|]. exact Hs. Qed.

Lemma clean_discord_trimmed s : trim (clean_discord s) = clean_discord s.
Proof. unfold clean_discord, remove_timestamps. apply trim_idemp. Qed.

Lemma clean_telegram_trimmed s : trim (clean_telegram s) = clean_telegram s.
Proof. unfold clean_telegram, remove_payment_fragments. apply trim_idemp. Qed.

Lemma race_with_retry_Forall (P : platform_call → Prop) n post cleanup retry :
  P post → P retry → (∀ c, cleanup = Some c → P c) →
  Forall P (race_with_retry n post cleanup retry).
Proof.
  intros Hpost Hretry Hcleanup. unfold race_with_retry, posting_task.
  destruct cleanup as [c|]; [specialize (Hcleanup c eq_refl)|];
    destruct (post_outcome n), (cleanup_outcome n), (timed_out n); simpl;
    repeat constructor; done.
Qed.

Lemma or_no_content_has_text s : trim s = s → or_no_content s ≠ [].
Proof. intros Hs. rewrite or_no_content_trimmed by done. by destruct s. Qed.

(** Closes the goals about one call of a delivery: a post carries a text
    that went through [or_no_content] or a test for emptiness, an edit or a
    deletion carries no text. *)
Ltac text_goal :=
  first
    [ by intros; simplify_eq
    | unfold has_text, discord_content, telegram_text; simpl; intros Hempty;
      injection Hempty as Hempty;
      first
        [ revert Hempty; apply or_no_content_has_text;
          first [ apply clean_discord_trimmed | apply clean_telegram_trimmed ]
        | by rewrite Hempty in *
        | done ] ].


(** ** Recording a pending entry *)

Section IntakeProperties.
Variable PAYMENT_CALLBACK_EXPIRY_MS : Z.
Variable validateLookback : jsstring -> jsstring + Z.
Variable encodeURIComponent : jsstring -> jsstring.

End IntakeProperties.



(** ** The matcher and the scans *)

Lemma prev_after_cons prev c m : prev_after prev (c :: m) = prev_after (Some c) m.
Proof.
  unfold prev_after. destruct m as [|c' m]; [done|]. rewrite last_cons_cons.
  destruct (last (c' :: m)) eqn:Hlast; [done|]. by apply last_None in Hlast.
Qed.

Lemma prev_after_app prev m1 m2 :
  prev_after prev (m1 ++ m2) = prev_after (prev_after prev m1) m2.
Proof.
  revert prev. induction m1 as [|c m1 IH]; intros prev; simpl; [done|].
  by rewrite !prev_after_cons, IH.
Qed.

Section Suffix.
Context {A : Type}.
Implicit Types (k : option N → jsstring → option A).

Lemma rep_greedy_suffix p k prev s a :
  rep_greedy p k prev s = Some a →
  ∃ m rest, s = m ++ rest ∧ k (prev_after prev m) rest = Some a.
Proof.
  revert prev. induction s as [|c s IH]; intros prev; simpl.
  - intros H. by exists [], [].
  - destruct (p c); [|intros H; by exists [], (c :: s)].
    destruct (rep_greedy p k (Some c) s) as [a'|] eqn:Hrec.
    + intros [= ->]. destruct (IH _ Hrec) as (m & rest & -> & Hk).
      exists (c :: m), rest. by rewrite prev_after_cons.
    + intros H. by exists [], (c :: s).
Qed.

Lemma rep_lazy_suffix p k prev s a :
  rep_lazy p k prev s = Some a →
  ∃ m rest, s = m ++ rest ∧ k (prev_after prev m) rest = Some a.
Proof.
  revert prev. induction s as [|c s IH]; intros prev; simpl.
  - destruct (k prev []) eqn:Hk; [|done]. intros [= ->]. by exists [], [].
  - destruct (k prev (c :: s)) eqn:Hk.
    + intros [= ->]. by exists [], (c :: s).
    + destruct (p c); [|done]. intros Hrec.
      destruct (IH _ Hrec) as (m & rest & -> & Hk').
      exists (c :: m), rest. by rewrite prev_after_cons.
Qed.

(** A continuation is only ever called on a suffix of the input. *)
Lemma run_suffix r : ∀ k prev s a,
  run r k prev s = Some a →
  ∃ m rest, s = m ++ rest ∧ k (prev_after prev m) rest = Some a.
Proof.
  induction r as [|p| | | |r1 IH1 r2 IH2|r1 IH1 r2 IH2|greedy p];
    intros k prev s a; simpl.
  - intros H. by exists [], s.
  - destruct s as [|c s]; [done|]. destruct (p c); [|done].
    intros H. by exists [c], s.
  - destruct (at_line_start prev); [|done]. intros H. by exists [], s.
  - destruct prev; [done|]. intros H. by exists [], s.
  - destruct s; [|done]. intros H. by exists [], [].
  - intros H. destruct (IH1 _ _ _ _ H) as (m1 & rest1 & -> & H1).
    destruct (IH2 _ _ _ _ H1) as (m2 & rest & -> & H2).
    exists (m1 ++ m2), rest. by rewrite prev_after_app, app_assoc.
  - destruct (run r1 k prev s) eqn:H1.
    + intros [= ->]. eauto.
    + eauto.
  - destruct greedy; [apply rep_greedy_suffix|apply rep_lazy_suffix].
Qed.
End Suffix.

Lemma exec_suffix r prev s rest :
  exec r prev s = Some rest → ∃ m, s = m ++ rest.
Proof.
  intros H. destruct (run_suffix r _ _ _ _ H) as (m & rest' & -> & [= ->]). eauto.
Qed.

Lemma matched_app m rest : matched (m ++ rest) rest = m.
Proof.
  unfold matched. rewrite length_app.
  replace (length m + length rest - length rest) with (length m) by lia.
  by rewrite take_app_length.
Qed.

(** Passing over the rest of a match. *)
Lemma replace_all_with_skip {St} r (f : St → jsstring → St * jsstring) st :
  ∀ n prev s, n ≤ length s →
    replace_all_with r f st n prev s
    = replace_all_with r f st 0 (prev_after prev (take n s)) (drop n s).
Proof.
  induction n as [|n IH]; intros prev s Hn.
  - by rewrite take_0, drop_0.
  - destruct s as [|c s]; simpl in *; [lia|].
    rewrite prev_after_cons. apply IH. lia.
Qed.

Lemma match_all_skip r :
  ∀ n prev s, n ≤ length s →
    match_all r n prev s = match_all r 0 (prev_after prev (take n s)) (drop n s).
Proof.
  induction n as [|n IH]; intros prev s Hn.
  - by rewrite take_0, drop_0.
  - destruct s as [|c s]; simpl in *; [lia|].
    rewrite prev_after_cons. apply IH. lia.
Qed.

(** One step of the scans, at a match that is not empty and at a position
    without a match. *)
Lemma replace_all_with_match {St} r (f : St → jsstring → St * jsstring) st prev m rest :
  exec r prev (m ++ rest) = Some rest → m ≠ [] →
  replace_all_with r f st 0 prev (m ++ rest)
  = (f st m).2 ++ replace_all_with r f (f st m).1 0 (prev_after prev m) rest.
Proof.
  intros Hexec Hm. destruct m as [|c m]; [done|].
  change ((c :: m) ++ rest) with (c :: (m ++ rest)) in *.
  cbn [replace_all_with]. rewrite Hexec.
  change (c :: m ++ rest) with ((c :: m) ++ rest). rewrite matched_app.
  destruct (f st (c :: m)) as [st' out]. cbn [length fst snd]. f_equal.
  rewrite replace_all_with_skip by (rewrite length_app; lia).
  by rewrite take_app_length, drop_app_length, prev_after_cons.
Qed.

Lemma replace_all_with_miss {St} r (f : St → jsstring → St * jsstring) st prev c s :
  exec r prev (c :: s) = None →
  replace_all_with r f st 0 prev (c :: s) = c :: replace_all_with r f st 0 (Some c) s.
Proof. intros Hexec. cbn [replace_all_with]. by rewrite Hexec. Qed.

Lemma match_all_match r prev m rest :
  exec r prev (m ++ rest) = Some rest → m ≠ [] →
  match_all r 0 prev (m ++ rest) = m :: match_all r 0 (prev_after prev m) rest.
Proof.
  intros Hexec Hm. destruct m as [|c m]; [done|].
  change ((c :: m) ++ rest) with (c :: (m ++ rest)) in *.
  cbn [match_all]. rewrite Hexec.
  change (c :: m ++ rest) with ((c :: m) ++ rest). rewrite matched_app.
  cbn [length]. f_equal.
  rewrite match_all_skip by (rewrite length_app; lia).
  by rewrite take_app_length, drop_app_length, prev_after_cons.
Qed.

Lemma match_all_miss r prev c s :
  exec r prev (c :: s) = None →
  match_all r 0 prev (c :: s) = match_all r 0 (Some c) s.
Proof. intros Hexec. cbn [match_all]. by rewrite Hexec. Qed.

(** ** Text that the chain leaves alone *)

Lemma match_all_nil_cons r prev c s :
  match_all r 0 prev (c :: s) = [] →
  exec r prev (c :: s) = None ∧ match_all r 0 (Some c) s = [].
Proof. cbn [match_all]. by destruct (exec r prev (c :: s)). Qed.

Lemma match_all_nil_nil r prev : match_all r 0 prev [] = [] → exec r prev [] = None.
Proof. cbn [match_all]. by destruct (exec r prev []). Qed.

Lemma replace_all_with_no_match {St} r (f : St → jsstring → St * jsstring) st :
  ∀ s prev, match_all r 0 prev s = [] → replace_all_with r f st 0 prev s = s.
Proof.
  induction s as [|c s IH]; intros prev H.
  - cbn [replace_all_with]. by rewrite (match_all_nil_nil _ _ H).
  - destruct (match_all_nil_cons _ _ _ _ H) as [Hexec Hrest].
    rewrite replace_all_with_miss by done. by rewrite IH.
Qed.

Lemma no_match_nil r s : no_match r s = true → match_all r 0 None s = [].
Proof. unfold no_match. by destruct (match_all r 0 None s). Qed.

Lemma replace_all_no_match r repl s : no_match r s = true → replace_all r repl s = s.
Proof.
  intros H. unfold replace_all. by apply replace_all_with_no_match, no_match_nil.
Qed.

Lemma replace_first_no_match r repl :
  ∀ s prev, match_all r 0 prev s = [] → replace_first r repl prev s = s.
Proof.
  induction s as [|c s IH]; intros prev H.
  - cbn [replace_first]. by rewrite (match_all_nil_nil _ _ H).
  - destruct (match_all_nil_cons _ _ _ _ H) as [Hexec Hrest].
    cbn [replace_first]. rewrite Hexec. by rewrite IH.
Qed.

Section Continuations.
Context {A B : Type}.

Lemma rep_greedy_none p (k : option N → jsstring → option A)
    (k' : option N → jsstring → option B) :
  (∀ prev s, k prev s = None → k' prev s = None) →
  ∀ s prev, rep_greedy p k prev s = None → rep_greedy p k' prev s = None.
Proof.
  intros Hk. induction s as [|c s IH]; intros prev; simpl; [apply Hk|].
  destruct (p c); [|apply Hk].
  destruct (rep_greedy p k (Some c) s) eqn:Hrec; [done|].
  intros H. by rewrite (IH _ Hrec), (Hk _ _ H).
Qed.

Lemma rep_lazy_none p (k : option N → jsstring → option A)
    (k' : option N → jsstring → option B) :
  (∀ prev s, k prev s = None → k' prev s = None) →
  ∀ s prev, rep_lazy p k prev s = None → rep_lazy p k' prev s = None.
Proof.
  intros Hk. induction s as [|c s IH]; intros prev; simpl.
  - destruct (k prev []) eqn:H; [done|]. by rewrite (Hk _ _ H).
  - destruct (k prev (c :: s)) eqn:H; [done|]. rewrite (Hk _ _ H).
    destruct (p c); [apply IH|done].
Qed.
End Continuations.

(** Whether a pattern fails does not depend on what its continuation
    returns, only on where the continuation fails. *)
Lemma run_none {A B} r : ∀ (k : option N → jsstring → option A)
    (k' : option N → jsstring → option B),
  (∀ prev s, k prev s = None → k' prev s = None) →
  ∀ prev s, run r k prev s = None → run r k' prev s = None.
Proof.
  induction r as [|p| | | |r1 IH1 r2 IH2|r1 IH1 r2 IH2|greedy p];
    intros k k' Hk prev s; simpl.
  - apply Hk.
  - destruct s as [|c s]; [done|]. destruct (p c); [apply Hk|done].
  - destruct (at_line_start prev); [apply Hk|done].
  - destruct prev; [done|apply Hk].
  - destruct s; [apply Hk|done].
  - apply IH1. intros prev' s'. by apply IH2.
  - destruct (run r1 k prev s) eqn:H1; [done|].
    intros H2. by rewrite (IH1 _ _ Hk _ _ H1), (IH2 _ _ Hk _ _ H2).
  - destruct greedy; [by apply rep_greedy_none|by apply rep_lazy_none].
Qed.

Lemma exec_group_none r1 r2 prev s :
  exec (Cat r1 r2) prev s = None → exec_group r1 r2 prev s = None.
Proof.
  unfold exec, exec_group. simpl. apply run_none.
  intros prev' s'. apply run_none. discriminate.
Qed.

Lemma keep_group_first_no_match r1 r2 :
  ∀ s prev, match_all (Cat r1 r2) 0 prev s = [] → keep_group_first r1 r2 prev s = s.
Proof.
  induction s as [|c s IH]; intros prev H.
  - cbn [keep_group_first].
    by rewrite (exec_group_none _ _ _ _ (match_all_nil_nil _ _ H)).
  - destruct (match_all_nil_cons _ _ _ _ H) as [Hexec Hrest].
    cbn [keep_group_first]. rewrite (exec_group_none _ _ _ _ Hexec). by rewrite IH.
Qed.

(** With at most one greeting in the text, the replacer keeps what it is
    given. *)
Lemma keep_first_greeting_once r :
  ∀ s prev, length (match_all r 0 prev s) ≤ 1 →
            replace_all_with r keep_first_greeting false 0 prev s = s.
Proof.
  induction s as [|c s IH]; intros prev H.
  - cbn [replace_all_with match_all] in *. by destruct (exec r prev []).
  - destruct (exec r prev (c :: s)) as [rest|] eqn:Hexec.
    + destruct (exec_suffix _ _ _ _ Hexec) as [m Hm]. destruct m as [|c' m].
      * simpl in Hm. subst rest. cbn [replace_all_with match_all] in *.
        rewrite Hexec in *. unfold matched in *.
        rewrite Nat.sub_diag, take_0 in *. cbn [length keep_first_greeting] in *.
        simpl in *. f_equal. apply replace_all_with_no_match.
        destruct (match_all r 0 (Some c) s); [done|simpl in H; lia].
      * rewrite Hm in *. rewrite match_all_match in H by done.
        rewrite replace_all_with_match by done. simpl. f_equal. f_equal.
        apply replace_all_with_no_match.
        destruct (match_all r 0 _ rest); [done|simpl in H; lia].
    + rewrite match_all_miss in H by done.
      rewrite replace_all_with_miss by done. by rewrite IH.
Qed.

Lemma rep_greedy_total p prev s :
  rep_greedy p (fun _ rest => Some rest) prev s = Some (skip_while p s).
Proof.
  revert prev. induction s as [|c s IH]; intros prev; simpl; [done|].
  destruct (p c); [|done]. by rewrite IH.
Qed.

(** Without three line feeds in a row, every run of blank lines is the two
    line feeds it is replaced by. *)
Lemma collapse_blank_lines_id :
  ∀ n s prev, length s ≤ n →
    match_all triple_newline 0 prev s = [] →
    replace_all_with blank_lines (fun (st : unit) _ => (st, LF ++ LF)) tt 0 prev s = s.
Proof.
  induction n as [|n IH]; intros s prev Hlen H.
  { by destruct s; [|simpl in Hlen; lia]. }
  destruct s as [|c s]; [done|].
  destruct (match_all_nil_cons _ _ _ _ H) as [Htriple Hrest].
  destruct (exec blank_lines prev (c :: s)) as [rest|] eqn:Hexec.
  - pose proof Hexec as Hrun. unfold exec, blank_lines in Hrun. simpl in Hrun.
    destruct (is_nl c) eqn:Hc; [|done].
    destruct s as [|c2 s]; [done|]. destruct (is_nl c2) eqn:Hc2; [|done].
    rewrite rep_greedy_total in Hrun. injection Hrun as <-.
    apply N.eqb_eq in Hc, Hc2. subst c c2.
    destruct (match_all_nil_cons _ _ _ _ Hrest) as [_ Hrest'].
    assert (Hskip : skip_while is_nl s = s).
    { destruct s as [|c3 s]; [done|].
      unfold exec, triple_newline in Htriple. cbn -[N.eqb] in Htriple.
      rewrite !N.eqb_refl in Htriple.
      simpl. unfold is_nl. rewrite N.eqb_sym.
      by destruct (10 =? c3)%N. }
    rewrite Hskip in Hexec.
    change (10%N :: 10%N :: s) with ((LF ++ LF) ++ s) in *.
    rewrite replace_all_with_match by done.
    simpl. do 2 f_equal. apply IH; [simpl in Hlen; lia|done].
  - rewrite replace_all_with_miss by done. f_equal.
    apply IH; [simpl in Hlen; lia|done].
Qed.

Lemma collapse_blank_lines s :
  no_match triple_newline s = true → replace_all blank_lines (LF ++ LF) s = s.
Proof.
  intros H. unfold replace_all.
  by apply (collapse_blank_lines_id (length s)), no_match_nil.
Qed.




(** ** Greetings *)

Lemma first_line_skip s : first_line s ++ skip_while not_nl s = s.
Proof. induction s as [|c s IH]; simpl; [done|]. destruct (not_nl c); simpl; by f_equal. Qed.

Lemma startsWith_app a b s :
  startsWith (a ++ b) s = startsWith a s && startsWith b (drop (length a) s).
Proof.
  revert s. induction a as [|x a IH]; intros s; simpl; [done|].
  destruct s as [|y s]; simpl; [by destruct b|].
  by rewrite IH, andb_assoc.
Qed.

Lemma startsWith_split l s : startsWith l s = true → s = l ++ drop (length l) s.
Proof.
  revert s. induction l as [|x l IH]; intros s; simpl; [done|].
  destruct s as [|y s]; [done|]. intros [Hxy Hl]%andb_prop.
  apply N.eqb_eq in Hxy as ->. simpl. f_equal. by apply IH.
Qed.

Lemma startsWith_prefix l u t : startsWith l u = true → startsWith l (u ++ t) = true.
Proof.
  revert u. induction l as [|x l IH]; intros u; simpl; [done|].
  destruct u as [|y u]; [done|]. simpl. intros [Hxy Hl]%andb_prop.
  by rewrite Hxy, IH.
Qed.

Lemma startsWith_first_line l s :
  forallb not_nl l = true → startsWith l (first_line s) = startsWith l s.
Proof.
  revert s. induction l as [|x l IH]; intros s; simpl; [done|].
  intros [Hx Hl]%andb_prop. destruct s as [|y s]; simpl; [done|].
  destruct (x =? y)%N eqn:Hxy.
  - apply N.eqb_eq in Hxy as <-. rewrite Hx. simpl. by rewrite N.eqb_refl, IH.
  - destruct (not_nl y); simpl; [by rewrite Hxy|done].
Qed.

Lemma skip_while_app p l s : forallb p l = true → skip_while p (l ++ s) = skip_while p s.
Proof.
  induction l as [|x l IH]; simpl; [done|]. intros [Hx Hl]%andb_prop.
  by rewrite Hx, IH.
Qed.

Lemma run_lit {A} l : ∀ (k : option N → jsstring → option A) prev s,
  run (lit l) k prev s
  = if startsWith l s then k (prev_after prev l) (drop (length l) s) else None.
Proof.
  induction l as [|x l IH]; intros k prev s; simpl; [done|].
  destruct s as [|y s]; [done|]. destruct (x =? y)%N eqn:Hxy; simpl; [|done].
  apply N.eqb_eq in Hxy as <-. by rewrite IH, prev_after_cons.
Qed.

(** One greeting word, the exclamation mark and the rest of the line. *)
Lemma run_greeting_word word prev s :
  forallb not_nl word = true →
  run (lit word) (run (lit (js "!")) (rep_greedy not_nl (fun _ rest => Some rest))) prev s
  = if startsWith (word ++ js "!") s then Some (skip_while not_nl s) else None.
Proof.
  intros Hword. rewrite run_lit, startsWith_app.
  destruct (startsWith word s) eqn:Hw; [|done].
  rewrite run_lit. cbn [andb].
  destruct (startsWith (js "!") (drop (length word) s)) eqn:Hbang; [|done].
  rewrite rep_greedy_total. f_equal.
  rewrite (startsWith_split _ _ Hw) at 2.
  rewrite (startsWith_split _ _ Hbang) at 2.
  by rewrite skip_while_app, skip_while_app.
Qed.

(** What one attempt of [greetingPattern] comes to: at the start of a line
    that begins with a greeting, the match runs to the end of the line. *)
Lemma exec_greeting prev s :
  exec greetingPattern prev s
  = if at_line_start prev && greets s then Some (skip_while not_nl s) else None.
Proof.
  unfold exec, greetingPattern, greeting_body. cbn [run seq].
  destruct (at_line_start prev); [|done]. cbn [andb].
  rewrite run_lit. cbn [run].
  change (Cat (lit (js "!")) (Rep true not_nl)) with (seq [lit (js "!"); Rep true not_nl]).
  unfold greets.
  change (js "Good morning!") with (js "Good " ++ js "morning" ++ js "!").
  change (js "Good afternoon!") with (js "Good " ++ js "afternoon" ++ js "!").
  change (js "Good evening!") with (js "Good " ++ js "evening" ++ js "!").
  rewrite !(startsWith_app (js "Good ")).
  destruct (startsWith (js "Good ") s) eqn:Hgood; [|done]. cbn [andb].
  cbn [seq run].
  change (fun (prev0 : option N) (s0 : jsstring) =>
            run (lit (js "!")) (fun (prev1 : option N) (s1 : jsstring) =>
              rep_greedy not_nl (fun _ rest => Some rest) prev1 s1) prev0 s0)
    with (run (lit (js "!")) (rep_greedy not_nl (fun _ rest => Some rest))).
  rewrite !run_greeting_word by done.
  assert (Hskip : skip_while not_nl (drop (length (js "Good ")) s) = skip_while not_nl s).
  { rewrite (startsWith_split _ _ Hgood) at 2. by rewrite skip_while_app. }
  rewrite Hskip.
  by repeat destruct (startsWith _ (drop _ s)).
Qed.

Lemma greets_first_line s : greets (first_line s) = greets s.
Proof. unfold greets. by rewrite !startsWith_first_line. Qed.

Lemma greets_prefix u t : greets u = true → greets (u ++ t) = true.
Proof.
  unfold greets. intros [[H|H]%orb_prop|H]%orb_prop;
    rewrite (startsWith_prefix _ _ t H); by rewrite ?orb_true_r.
Qed.

Lemma greets_line_feed s : greets (10%N :: s) = false.
Proof. reflexivity. Qed.

Lemma not_nl_false c : not_nl c = false → c = 10%N.
Proof. unfold not_nl. intros H. apply N.eqb_eq. by destruct (c =? 10)%N. Qed.

Lemma first_line_nil_cons c s : first_line (c :: s) = [] → c = 10%N.
Proof. simpl. destruct (not_nl c) eqn:Hc; [done|]. intros _. by apply not_nl_false. Qed.

Lemma greets_first_line_nonempty s : greets s = true → first_line s ≠ [].
Proof. intros H Hnil. by rewrite <- greets_first_line, Hnil in H. Qed.

Lemma first_line_all s : forallb not_nl (first_line s) = true.
Proof.
  induction s as [|c s IH]; simpl; [done|].
  destruct (not_nl c) eqn:Hc; simpl; [by rewrite Hc|done].
Qed.

Lemma first_line_skip_while s : first_line (skip_while not_nl s) = [].
Proof.
  induction s as [|c s IH]; simpl; [done|].
  destruct (not_nl c) eqn:Hc; [done|]. simpl. by rewrite Hc.
Qed.

Lemma first_line_app_end u y :
  forallb not_nl u = true → first_line y = [] → first_line (u ++ y) = u.
Proof.
  intros Hu Hy. induction u as [|c u IH]; simpl in *; [done|].
  apply andb_prop in Hu as [Hc Hu]. by rewrite Hc, IH.
Qed.

Lemma skip_while_line_end y : first_line y = [] → skip_while not_nl y = y.
Proof. destruct y as [|c y]; simpl; [done|]. by destruct (not_nl c). Qed.

Section FirstGreeting.
Local Abbreviation R := (replace_all_with greetingPattern keep_first_greeting).
Local Abbreviation M := (match_all greetingPattern).

Lemma greeting_hit prev s :
  at_line_start prev && greets s = true →
  exec greetingPattern prev (first_line s ++ skip_while not_nl s)
  = Some (skip_while not_nl s).
Proof. intros H. by rewrite first_line_skip, exec_greeting, H. Qed.

Lemma greeting_miss prev s :
  at_line_start prev && greets s = false → exec greetingPattern prev s = None.
Proof. intros H. by rewrite exec_greeting, H. Qed.

Lemma R_nil seen prev : R seen 0 prev [] = [].
Proof.
  cbn [replace_all_with]. rewrite greeting_miss; [done|]. apply andb_false_r.
Qed.

Lemma M_nil prev : M 0 prev [] = [].
Proof. cbn [match_all]. rewrite greeting_miss; [done|]. apply andb_false_r. Qed.

Lemma R_hit (seen : bool) prev s :
  at_line_start prev && greets s = true →
  R seen 0 prev s
  = (if seen then [] else first_line s)
      ++ R true 0 (prev_after prev (first_line s)) (skip_while not_nl s).
Proof.
  intros H. rewrite <- (first_line_skip s) at 1.
  rewrite replace_all_with_match.
  - unfold keep_first_greeting. by destruct seen.
  - by apply greeting_hit.
  - apply greets_first_line_nonempty. by apply andb_prop in H as [_ ?].
Qed.

Lemma M_hit prev s :
  at_line_start prev && greets s = true →
  M 0 prev s = first_line s :: M 0 (prev_after prev (first_line s)) (skip_while not_nl s).
Proof.
  intros H. rewrite <- (first_line_skip s) at 1.
  rewrite match_all_match; [done|by apply greeting_hit|].
  apply greets_first_line_nonempty. by apply andb_prop in H as [_ ?].
Qed.

Lemma R_miss (seen : bool) prev c s :
  at_line_start prev && greets (c :: s) = false →
  R seen 0 prev (c :: s) = c :: R seen 0 (Some c) s.
Proof. intros H. by rewrite replace_all_with_miss by by apply greeting_miss. Qed.

Lemma M_miss prev c s :
  at_line_start prev && greets (c :: s) = false →
  M 0 prev (c :: s) = M 0 (Some c) s.
Proof. intros H. by rewrite match_all_miss by by apply greeting_miss. Qed.

(** At the end of a line the result begins with the same line feed. *)
Lemma first_line_R_line_end (seen : bool) prev y :
  first_line y = [] → first_line (R seen 0 prev y) = [].
Proof.
  destruct y as [|c y]; [by rewrite R_nil|]. intros Hc.
  pose proof (first_line_nil_cons _ _ Hc) as ->.
  rewrite R_miss by (rewrite greets_line_feed; apply andb_false_r). done.
Qed.

(** The first line of the result is the start of the first line of the
    input: a greeting is deleted up to the end of its line. *)
Lemma first_line_R (seen : bool) s :
  ∀ prev, ∃ t, first_line s = first_line (R seen 0 prev s) ++ t.
Proof.
  induction s as [|c s IH]; intros prev.
  - exists []. by rewrite R_nil.
  - destruct (at_line_start prev && greets (c :: s)) eqn:Hhit.
    + rewrite R_hit by done. destruct seen.
      * exists (first_line (c :: s)).
        by rewrite app_nil_l, first_line_R_line_end by apply first_line_skip_while.
      * exists []. rewrite app_nil_r. symmetry. apply first_line_app_end.
        -- apply first_line_all.
        -- apply first_line_R_line_end, first_line_skip_while.
    + rewrite R_miss by done. simpl. destruct (not_nl c); [|by exists []].
      destruct (IH (Some c)) as [t Ht]. exists t. by rewrite Ht.
Qed.

Lemma greets_cons_R (seen : bool) prev c s :
  greets (c :: R seen 0 prev s) = true → greets (c :: s) = true.
Proof.
  rewrite <- (greets_first_line (c :: R _ _ _ _)), <- (greets_first_line (c :: s)).
  simpl. destruct (not_nl c); [|done].
  destruct (first_line_R seen s prev) as [t ->].
  apply (greets_prefix (c :: _) t).
Qed.

Lemma miss_cons_R (seen : bool) prev prev' c s :
  at_line_start prev && greets (c :: s) = false →
  at_line_start prev && greets (c :: R seen 0 prev' s) = false.
Proof.
  destruct (at_line_start prev); [|done]. simpl.
  destruct (greets (c :: R seen 0 prev' s)) eqn:H; [|done].
  by rewrite (greets_cons_R _ _ _ _ H).
Qed.

(** Once the first greeting has been seen, no greeting is left. *)
Lemma no_greeting_left :
  ∀ n s prev_in prev_out, length s ≤ n →
    prev_in = prev_out ∨ first_line s = [] →
    M 0 prev_out (R true 0 prev_in s) = [].
Proof.
  induction n as [|n IH]; intros s prev_in prev_out Hlen Hprev.
  { destruct s; [|simpl in Hlen; lia]. by rewrite R_nil, M_nil. }
  destruct s as [|c s]; [by rewrite R_nil, M_nil|].
  destruct (at_line_start prev_in && greets (c :: s)) eqn:Hhit.
  - rewrite R_hit by done. rewrite app_nil_l.
    assert (Hline : first_line (c :: s) ≠ []).
    { apply greets_first_line_nonempty. by apply andb_prop in Hhit as [_ ?]. }
    apply IH; [|right; apply first_line_skip_while].
    pose proof (f_equal length (first_line_skip (c :: s))) as Hsplit.
    rewrite length_app in Hsplit.
    destruct (first_line (c :: s)); [done|]. simpl in *. lia.
  - rewrite R_miss by done. rewrite M_miss.
    + apply IH; [simpl in Hlen; lia|by left].
    + destruct Hprev as [<-|Hline].
      * by apply miss_cons_R.
      * rewrite (first_line_nil_cons _ _ Hline), greets_line_feed.
        apply andb_false_r.
Qed.

Lemma first_greeting_only s :
  ∀ prev, M 0 prev (R false 0 prev s) = take 1 (M 0 prev s).
Proof.
  induction s as [|c s IH]; intros prev.
  - by rewrite R_nil, M_nil.
  - destruct (at_line_start prev && greets (c :: s)) eqn:Hhit.
    + rewrite R_hit, (M_hit prev (c :: s)) by done. simpl take.
      set (m := first_line (c :: s)).
      set (y := R true 0 (prev_after prev m) (skip_while not_nl (c :: s))).
      assert (Hy : first_line y = []).
      { apply first_line_R_line_end, first_line_skip_while. }
      assert (Hm : first_line (m ++ y) = m).
      { apply first_line_app_end; [apply first_line_all|done]. }
      assert (Hhit' : at_line_start prev && greets (m ++ y) = true).
      { apply andb_prop in Hhit as [-> Hg]. simpl. apply greets_prefix.
        subst m. by rewrite greets_first_line. }
      rewrite (M_hit prev (m ++ y)) by done. rewrite Hm. f_equal.
      rewrite skip_while_app, skip_while_line_end by (done || apply first_line_all).
      subst y. by apply (no_greeting_left (length (skip_while not_nl (c :: s)))); [|left].
    + rewrite R_miss, (M_miss prev c s) by done.
      rewrite M_miss by by apply miss_cons_R. apply IH.
Qed.

(** The text up to and including the first greeting is kept as it is. *)
Lemma first_greeting_in_place s :
  ∀ prev m others, M 0 prev s = m :: others →
    ∃ before after,
      s = before ++ m ++ after
      ∧ M 0 prev before = []
      ∧ R false 0 prev s
        = before ++ m ++ R true 0 (prev_after prev (before ++ m)) after.
Proof.
  induction s as [|c s IH]; intros prev m others.
  - by rewrite M_nil.
  - destruct (at_line_start prev && greets (c :: s)) eqn:Hhit.
    + rewrite M_hit by done. intros Heq.
      assert (Hm : first_line (c :: s) = m) by congruence. subst m.
      exists [], (skip_while not_nl (c :: s)).
      rewrite !app_nil_l, first_line_skip, M_nil. split; [done|]. split; [done|].
      by rewrite R_hit.
    + rewrite M_miss by done. intros Hm.
      destruct (IH (Some c) m others Hm) as (before & after & Hs & Hbefore & HR).
      exists (c :: before), after. split; [by rewrite Hs|].
      assert (Hmiss : at_line_start prev && greets (c :: before) = false).
      { destruct (at_line_start prev); [|done]. simpl in *.
        destruct (greets (c :: before)) eqn:Hg; [|done].
        rewrite Hs in Hhit. change (c :: before ++ m ++ after)
          with ((c :: before) ++ m ++ after) in Hhit.
        by rewrite (greets_prefix (c :: before) (m ++ after) Hg) in Hhit. }
      split; [by rewrite M_miss|].
      rewrite R_miss by done. rewrite HR. simpl. by rewrite prev_after_cons.
Qed.
End FirstGreeting.

Lemma matches_are_greetings :
  ∀ n s prev, length s ≤ n →
    Forall (fun m => greets m = true ∧ forallb not_nl m = true)
      (match_all greetingPattern 0 prev s).
Proof.
  induction n as [|n IH]; intros s prev Hlen.
  { destruct s; [|simpl in Hlen; lia]. rewrite M_nil. constructor. }
  destruct s as [|c s]; [rewrite M_nil; constructor|].
  destruct (at_line_start prev && greets (c :: s)) eqn:Hhit.
  - rewrite M_hit by done. apply andb_prop in Hhit as [_ Hg]. constructor.
    + split; [by rewrite greets_first_line|apply first_line_all].
    + apply IH.
      pose proof (f_equal length (first_line_skip (c :: s))) as Hsplit.
      rewrite length_app in Hsplit.
      pose proof (greets_first_line_nonempty _ Hg) as Hline.
      destruct (first_line (c :: s)); [done|]. simpl in *. lia.
  - rewrite M_miss by done. apply IH. simpl in Hlen. lia.
Qed.


(** The scenario of a summary with the greeting on two lines: the second
    one goes and the text is delivered with the greeting once. *)
Example duplicated_greeting_scenario :
  discord_content (recap_greeting ++ LF ++ js "- launch moved to Friday" ++ LF
                     ++ recap_greeting ++ LF ++ js "- budget approved")
  = recap_greeting ++ LF ++ js "- launch moved to Friday" ++ LF ++ LF
      ++ js "- budget approved".
Proof. vm_compute. reflexivity. Qed.



(** ** Expiry *)

Lemma sweep_discord_expired (now : Z) (reg : DiscordCallbacks) (t : jsstring) :
  (∀ e, reg !! t = Some e → (Discord.expiresAt e < now)%Z) →
  sweep_discord now reg !! t = None.
Proof.
  intros H. unfold sweep_discord. apply map_lookup_filter_None.
  destruct (reg !! t) as [e|] eqn:Ht; [right|by left].
  intros e' [= <-] Hkeep. simpl in Hkeep. by apply Hkeep, H.
Qed.

Lemma sweep_telegram_expired (now : Z) (reg : TelegramCallbacks) (t : jsstring) :
  (∀ e, reg !! t = Some e → (Telegram.expiresAt e < now)%Z) →
  sweep_telegram now reg !! t = None.
Proof.
  intros H. unfold sweep_telegram. apply map_lookup_filter_None.
  destruct (reg !! t) as [e|] eqn:Ht; [right|by left].
  intros e' [= <-] Hkeep. simpl in Hkeep. by apply Hkeep, H.
Qed.

(** C2, as the code has it.  Expiry is enforced by the sweep alone: once a
    sweep has run at a time after [expiresAt], a callback for the token is
    answered [404] and nothing is posted.  The handlers do not read
    [expiresAt]; before that sweep, an expired entry is still delivered. *)
Theorem expired_entry_not_found_after_sweep
    (decodeURIComponent : jsstring -> option jsstring) (baseUrl : jsstring)
    (botToken : option jsstring) (n : net) (now later : Z) (b : callback_body)
    (tok t : jsstring) (dreg : DiscordCallbacks) (treg : TelegramCallbacks)
    (search : SearchStates) :
  token b = Some tok → tok ≠ [] → decodeURIComponent tok = Some t →
  (∀ e, dreg !! t = Some e → (Discord.expiresAt e < now)%Z) →
  (∀ e, treg !! t = Some e → (Telegram.expiresAt e < now)%Z) →
  handleDiscordCallback decodeURIComponent baseUrl n (Some b) (sweep_discord now dreg)
  = (not_found, sweep_discord now dreg, [])
  ∧ handleTelegramCallback decodeURIComponent botToken n later (Some b)
      (sweep_telegram now treg) search
    = (not_found, sweep_telegram now treg, search, []).
Proof.
  intros Htok Hne Hdec Hd Ht. split.
  - pose proof (discord_callback_cases decodeURIComponent baseUrl n b
                  (sweep_discord now dreg) tok t Htok Hne Hdec) as H.
    by rewrite sweep_discord_expired in H.
  - pose proof (telegram_callback_cases decodeURIComponent botToken n later b
                  (sweep_telegram now treg) search tok t Htok Hne Hdec) as H.
    by rewrite sweep_telegram_expired in H.
Qed.

(** The claim C2 read literally fails: neither handler reads [expiresAt].
    At time 2000 the entries made to expire at 1000 are due for removal (a
    sweep would delete them), yet a callback that arrives before the sweep
    is delivered. *)
Lemma expired_entry_is_delivered :
  sweep_discord 2000 {[ js "tok" := old_discord_entry ]} = ∅
  ∧ sweep_telegram 2000 {[ js "tok" := old_telegram_entry ]} = ∅
  ∧ handleDiscordCallback Some discord_api quiet_net (Some all_quiet)
      {[ js "tok" := old_discord_entry ]}
    = (Success, ∅,
       [DiscordPost (js "https://discord.com/api/v10/webhooks/app/tok")
          (js "All quiet.")])
  ∧ handleTelegramCallback Some (Some (js "bot")) quiet_net 2000 (Some all_quiet)
      {[ js "tok" := old_telegram_entry ]} ∅
    = (Success, ∅, ∅, [TelegramSendMessage (js "bot") 7 (js "All quiet.") false]).
Proof. vm_compute. done. Qed.

Lemma expired_entry_not_found_after_sweep_witness :
  handleDiscordCallback Some discord_api quiet_net (Some all_quiet)
    (sweep_discord 2000 {[ js "tok" := old_discord_entry ]})
  = (not_found, sweep_discord 2000 {[ js "tok" := old_discord_entry ]}, []).
Proof.
  refine (proj1 (expired_entry_not_found_after_sweep Some discord_api (Some (js "bot"))
                   quiet_net 2000 2000 all_quiet (js "tok") (js "tok")
                   {[ js "tok" := old_discord_entry ]}
                   {[ js "tok" := old_telegram_entry ]} ∅ eq_refl _ eq_refl _ _)).
  - discriminate.
  - intros e. rewrite lookup_singleton_eq. intros [= <-]. simpl. lia.
  - intros e. rewrite lookup_singleton_eq. intros [= <-]. simpl. lia.
Defined.

